(** * Context scope resolver and storage-backend dispatcher

    A shallow embedding of [red/runtime/nodes/context/index.js] and the
    properties of its registry of storage backends, of the scope objects
    it hands out and of its cache of scopes.

    Conventions of the embedding.
    - The module-level variables of the file ([settings], [contexts],
      [globalContext], [externalContexts], [hasExternalContext]) are the
      fields of [State]; every function takes the state and returns the new
      one.
    - Scope objects are JavaScript objects with an identity: they live in a
      [heap], a list indexed by location that only grows, and each is a
      finite map of its own properties.
    - [externalContexts] and [settings.contextStorage] are enumerated with
      [for ... in], so they are kept as lists of own properties in
      enumeration order: array indices first, in ascending order, then
      the other names in the order of their creation.
    - [contexts] is only looked up, assigned, deleted and swept, so its
      own properties are a [gmap].  Being a plain object, it treats the
      names [__proto__] and [hasOwnProperty] unlike the others: the
      functions of the module [Js] are [getContext], [deleteContext] and
      [clean] for every name, and those outside it are the same functions
      for all names but these two.  The names of the backends are assumed
      to be neither of the two.
    - Calls into a backend are not executed: they are recorded, in order,
      as [Event]s, and the promises they return are kept symbolic. *)

From stdpp Require Import gmap strings list fin_maps.

Local Open Scope string_scope.
Local Open Scope list_scope.

(** ** JavaScript values that reach the argument positions of the API *)

Inductive jsval :=
| JUndefined
| JNull
| JBool (b : bool)
| JStr (s : string)
| JFun (src : string).

(** [!v] is [negb (truthy v)]. *)
Definition truthy (v : jsval) : bool :=
  match v with
  | JUndefined | JNull => false
  | JBool b => b
  | JStr s => negb (String.eqb s "")
  | JFun _ => true
  end.

(** [typeof v === 'function'] *)
Definition is_function (v : jsval) : bool :=
  match v with JFun _ => true | _ => false end.

(** Conversion of a value used as a property key. *)
Definition to_key (v : jsval) : string :=
  match v with
  | JUndefined => "undefined"
  | JNull => "null"
  | JBool true => "true"
  | JBool false => "false"
  | JStr s => s
  | JFun src => src
  end.

(** ** Objects and the order of their own properties *)

(** The value of a decimal digit (codes 48 to 57). *)
Definition digit (c : Ascii.ascii) : option N :=
  let n := Ascii.N_of_ascii c in
  if ((48 <=? n) && (n <=? 57))%N then Some (n - 48)%N else None.

Fixpoint decimal (s : string) (acc : N) : option N :=
  match s with
  | EmptyString => Some acc
  | String c rest =>
      match digit c with
      | Some d => decimal rest (10 * acc + d)%N
      | None => None
      end
  end.

(** A property name is an array index when it is the canonical decimal
    form of a number below [2^32 - 1]. *)
Definition array_index (k : string) : option N :=
  match k with
  | EmptyString => None
  | String c rest =>
      if Ascii.eqb c (Ascii.ascii_of_nat 48) then
        match rest with EmptyString => Some 0%N | _ => None end
      else
        match decimal k 0 with
        | Some n => if (n <? 4294967295)%N then Some n else None
        | None => None
        end
  end.

(** Whether a new property [k] is enumerated before the property [k']:
    array indices come first, in ascending order, and the other names
    follow in the order of their creation. *)
Definition enumerated_before (k k' : string) : bool :=
  match array_index k, array_index k' with
  | Some n, Some n' => (n <? n')%N
  | Some _, None => true
  | None, _ => false
  end.

Module Props.
Section Props.
Context {V : Type}.

(** [o.hasOwnProperty(k)] *)
Fixpoint has_own (k : string) (o : list (string * V)) : bool :=
  match o with
  | [] => false
  | (k', _) :: o' => if String.eqb k k' then true else has_own k o'
  end.

(** [o[k]], [None] standing for a missing property. *)
Fixpoint get (k : string) (o : list (string * V)) : option V :=
  match o with
  | [] => None
  | (k', v) :: o' => if String.eqb k k' then Some v else get k o'
  end.

(** [o[k] = v] for a property that exists: it keeps its place. *)
Fixpoint replace (k : string) (v : V) (o : list (string * V)) : list (string * V) :=
  match o with
  | [] => []
  | (k', v') :: o' =>
      if String.eqb k k' then (k', v) :: o' else (k', v') :: replace k v o'
  end.

(** [o[k] = v] for a new property: it takes its place in the enumeration. *)
Fixpoint create (k : string) (v : V) (o : list (string * V)) : list (string * V) :=
  match o with
  | [] => [(k, v)]
  | (k', v') :: o' =>
      if enumerated_before k k' then (k, v) :: (k', v') :: o'
      else (k', v') :: create k v o'
  end.

(** [o[k] = v] *)
Definition set (k : string) (v : V) (o : list (string * V)) : list (string * V) :=
  if has_own k o then replace k v o else create k v o.

End Props.
End Props.

(** ** Backends, errors, promises, events *)

Inductive Backend := BackendId (n : nat).

(** What a registry slot or a plugin call can hold: an instance, or
    [undefined]. *)
Inductive BVal := BUndefined | BInst (b : Backend).

Inductive BackendOp :=
| OpOpen
| OpClose
| OpClean (ids : list string)
| OpDelete (id : string).

Inductive Error :=
| ErrInvalidDefaultModule (storage : string)   (* context.error-invalid-default-module *)
| ErrModuleNotLoaded (module : string)         (* context.error-module-not-loaded *)
| ErrLoadingModule (name message : string)     (* context.error-loading-module *)
| ErrModuleNotDefined (storage : string)       (* context.error-module-not-defined *)
| ContextError (storage : string)              (* context.error-use-undefined-storage *)
| ErrCallback                                  (* "Callback must be a function" *)
| TypeError.                                   (* raised by the language itself *)

Inductive Promise :=
| Rejected (e : Error)
| Resolved
| Pending (b : Backend) (op : BackendOp)
| All (ps : list (Backend * BackendOp)).

(** The configuration object handed to a plugin. *)
Record Config := {
  options : list (string * string);
  config_settings : list (string * option string)
}.

(** Locations of objects in the heap. *)
Abbreviation loc := nat (only parsing).

Inductive Event :=
| EvSetGlobalContext (b : Backend) (seed : loc)
| EvConstruct (name : string) (config : Config)
| EvBackend (b : Backend) (op : BackendOp).

(** A plugin module is a function of the configuration that returns an
    instance (or anything else, here [undefined]) or throws. *)
Inductive Constructed := CtorThrow (message : string) | CtorReturn (v : BVal).
Definition Plugin := Config -> Constructed.

Inductive ModuleSpec := ModName (module : string) | ModFn (p : Plugin).

(** An entry of [settings.contextStorage]: a string, an object with or
    without a [module] property, or [null]/[undefined]. *)
Inductive Entry :=
| EntStr (s : string)
| EntObj (module : option ModuleSpec) (config : option Config)
| EntNullish.

Record Settings := {
  functionGlobalContext : option loc;
  contextStorage : option (list (string * Entry));
  userDir : option string
}.

(** ** Scope objects *)

Inductive Method := MGet | MSet | MKeys.

Inductive Value :=
| VData (d : string)
| VRef (l : loc)
| VClosure (m : Method) (scope : string).

Record State := {
  settings : option Settings;
  contexts : gmap string loc;
  globalContext : option loc;
  externalContexts : list (string * BVal);
  hasExternalContext : bool;
  heap : list (gmap string Value)
}.

(** The state of the module when it has just been required. *)
Definition initial (h : list (gmap string Value)) : State :=
  {| settings := None; contexts := ∅; globalContext := None;
     externalContexts := []; hasExternalContext := false; heap := h |}.

Definition with_heap (h : list (gmap string Value)) (st : State) : State :=
  {| settings := settings st; contexts := contexts st;
     globalContext := globalContext st;
     externalContexts := externalContexts st;
     hasExternalContext := hasExternalContext st; heap := h |}.

Definition with_settings (s : option Settings) (st : State) : State :=
  {| settings := s; contexts := contexts st;
     globalContext := globalContext st;
     externalContexts := externalContexts st;
     hasExternalContext := hasExternalContext st; heap := heap st |}.

Definition with_contexts (c : gmap string loc) (st : State) : State :=
  {| settings := settings st; contexts := c;
     globalContext := globalContext st;
     externalContexts := externalContexts st;
     hasExternalContext := hasExternalContext st; heap := heap st |}.

Definition with_externalContexts (e : list (string * BVal)) (st : State) : State :=
  {| settings := settings st; contexts := contexts st;
     globalContext := globalContext st;
     externalContexts := e;
     hasExternalContext := hasExternalContext st; heap := heap st |}.

(** [{}] *)
Definition new_object (st : State) : loc * State :=
  (length (heap st), with_heap (heap st ++ [∅]) st).

(** [obj[k] = v] on the object at [l]. *)
Definition set_property (l : loc) (k : string) (v : Value) (st : State) : State :=
  with_heap (alter (fun o => <[k := v]> o) l (heap st)) st.

Definition property (l : loc) (k : string) (st : State) : option Value :=
  heap st !! l ≫= fun o => o !! k.

(** [createContext(id, seed)] *)
Definition createContext (id : string) (seed : option loc) (st : State) : loc * State :=
  let scope := id in
  let '(obj, st) := match seed with
                    | Some l => (l, st)
                    | None => new_object st
                    end in
  let st := set_property obj "get" (VClosure MGet scope) st in
  let st := set_property obj "set" (VClosure MSet scope) st in
  let st := set_property obj "keys" (VClosure MKeys scope) st in
  (obj, st).

(** [if (flowId)]: the flow identifier when it is given and not empty. *)
Definition given (flowId : option string) : option string :=
  match flowId with
  | Some f => if String.eqb f "" then None else Some f
  | None => None
  end.

(** [var contextId = localId; if (flowId) { contextId = localId+":"+flowId; }] *)
Definition context_id (localId : string) (flowId : option string) : string :=
  match given flowId with
  | Some f => localId +:+ ":" +:+ f
  | None => localId
  end.

(** The body of [getContext], with the function itself as [self]; the
    cache is read as a finite map, which is what it is for every name but
    ["__proto__"] and ["hasOwnProperty"] ([Js.getContext_body] below is
    the function for all names). *)
Definition getContext_body (self : string -> option string -> State -> loc * State)
    (localId : string) (flowId : option string) (st : State) : loc * State :=
  let contextId := context_id localId flowId in
  match contexts st !! contextId with
  | Some c => (c, st)
  | None =>
      let '(newContext, st) := createContext contextId None st in
      let st := match given flowId with
                | Some f =>
                    let '(fl, st) := self f None st in
                    set_property newContext "flow" (VRef fl) st
                | None => st
                end in
      let st := match globalContext st with
                | Some g => set_property newContext "global" (VRef g) st
                | None => st
                end in
      (newContext, with_contexts (<[contextId := newContext]> (contexts st)) st)
  end.

(** [getContext(localId, flowId)].  The inner call passes no [flowId], so
    the recursion stops after one level; [getContext_unfold] below shows
    that this is the fixpoint of the body. *)
Definition getContext : string -> option string -> State -> loc * State :=
  getContext_body (getContext_body (fun _ _ st => (0, st))).

(** What a function call can do besides changing the state: throw, or
    return. *)
Inductive Completion (A : Type) :=
| Throw (e : Error)
| Return (a : A).
Arguments Throw {A} e.
Arguments Return {A} a.

(** The call a scope method forwards to a backend. *)
Inductive BackendCall :=
| CGet (scope key : string) (callback : jsval)
| CSet (scope key : string) (value : string) (callback : jsval)
| CKeys (scope : string) (callback : jsval).

(** [externalContexts[name]] *)
Definition slot (name : string) (st : State) : BVal :=
  default BUndefined (Props.get name (externalContexts st)).

(** [for (var plugin in externalContexts) promises.push(externalContexts[plugin].op())].
    Calling a method of [undefined] throws, after the calls already made. *)
Fixpoint for_each_backend (op : BackendOp) (ext : list (string * BVal))
    : Completion (list (Backend * BackendOp)) * list Event :=
  match ext with
  | [] => (Return [], [])
  | (_, BUndefined) :: _ => (Throw TypeError, [])
  | (_, BInst b) :: ext' =>
      let '(r, evs) := for_each_backend op ext' in
      (match r with
       | Throw e => Throw e
       | Return promises => Return ((b, op) :: promises)
       end, EvBackend b op :: evs)
  end.

(** [id.split(":")[0]]; 58 is the code of the colon. *)
Fixpoint split_head (id : string) : string :=
  match id with
  | EmptyString => EmptyString
  | String c rest => if Ascii.eqb c (Ascii.ascii_of_nat 58) then EmptyString else String c (split_head rest)
  end.

(** [copySettings(config, settings)]: the configuration is updated in
    place and then handed to the plugin; here the updated one is returned,
    and [load] puts it back where the settings hold it. *)
Definition copySettings (config : Config) (s : Settings) : Config :=
  let copy := ["userDir"] in
  {| options := options config;
     config_settings := map (fun setting => (setting, userDir s)) copy |}.

Inductive Loop :=
| LoopReject (e : Error)
| LoopDone (defaultIsAlias : bool).

(** What one turn of the loop does. *)
Inductive Step :=
| Continue (defaultIsAlias : bool) (ext : list (string * BVal)) (evs : list Event)
| Leave (e : Error) (evs : list Event).

(** [{}] as a plugin configuration. *)
Definition empty_config : Config := {| options := []; config_settings := [] |}.

Section Runtime.

(** The instance that [memory()] returns, and the resolution of
    [require("./" + module)] ([None] when it throws). *)
Variable memory : Backend.
Variable require : string -> option Plugin.

(** [init(_settings)] *)
Definition init (_settings : Settings) (st : State) : State * list Event :=
  let st := {| settings := Some _settings; contexts := contexts st;
               globalContext := globalContext st; externalContexts := [];
               hasExternalContext := hasExternalContext st; heap := heap st |} in
  let '(seed, st) := match functionGlobalContext _settings with
                     | Some l => (l, st)
                     | None => new_object st
                     end in
  let st := with_externalContexts (Props.set "_" (BInst memory) (externalContexts st)) st in
  let '(g, st) := createContext "global" (Some seed) st in
  let st := {| settings := settings st; contexts := contexts st;
               globalContext := Some g; externalContexts := externalContexts st;
               hasExternalContext := hasExternalContext st; heap := heap st |} in
  (with_contexts (<["global" := g]> (contexts st)) st, [EvSetGlobalContext memory seed]).

(** The body of the first loop of [load], for the entry [pluginName] of
    [plugins]: it goes on to the next entry ([continue], or the end of the
    body), or it leaves [load] with [return reject(...)]. *)
Definition load_plugin (s : Settings) (plugins : list (string * Entry))
    (pluginName : string) (entry : Entry)
    (defaultIsAlias : bool) (ext : list (string * BVal)) : Step :=
  if String.eqb pluginName "_" then
    Continue defaultIsAlias ext []
  else
    match String.eqb pluginName "default", entry with
    | true, EntStr target =>
        if negb (Props.has_own target plugins) then
          Leave (ErrInvalidDefaultModule target) []
        else
          Continue true ext []
    | _, EntNullish => Leave TypeError []
    | _, EntStr _ | _, EntObj None _ => Leave (ErrModuleNotDefined pluginName) []
    | _, EntObj (Some m) config =>
        let config := copySettings (default empty_config config) s in
        let located := match m with
                       | ModName name =>
                           match require name with
                           | Some plugin => Return plugin
                           | None => Throw (ErrModuleNotLoaded name)
                           end
                       | ModFn plugin => Return plugin
                       end in
        match located with
        | Throw e => Leave e []
        | Return plugin =>
            match plugin config with
            | CtorThrow message =>
                Leave (ErrLoadingModule pluginName message) [EvConstruct pluginName config]
            | CtorReturn v =>
                Continue defaultIsAlias (Props.set pluginName v ext)
                  [EvConstruct pluginName config]
            end
        end
    end.

(** The first loop of [load]: one entry of [settings.contextStorage] at a
    time.  [plugins] is the whole object, [todo] what is left to
    enumerate. *)
Fixpoint load_plugins (s : Settings) (plugins todo : list (string * Entry))
    (defaultIsAlias : bool) (ext : list (string * BVal))
    : Loop * list (string * BVal) * list Event :=
  match todo with
  | [] => (LoopDone defaultIsAlias, ext, [])
  | (pluginName, entry) :: todo' =>
      match load_plugin s plugins pluginName entry defaultIsAlias ext with
      | Leave e evs => (LoopReject e, ext, evs)
      | Continue defaultIsAlias ext evs =>
          let '(r, ext, evs') := load_plugins s plugins todo' defaultIsAlias ext in
          (r, ext, evs ++ evs')
      end
  end.

(** [plugins["default"]] used as a property key. *)
Definition default_target (plugins : list (string * Entry)) : string :=
  match Props.get "default" plugins with
  | Some (EntStr target) => target
  | Some (EntObj _ _) => "[object Object]"
  | Some EntNullish => "null"
  | None => "undefined"
  end.

(** The end of [load]: open the fallback alone, or raise the flag. *)
Definition load_finish (promises : list (Backend * BackendOp)) (st : State)
    (evs : list Event) : Promise * State * list Event :=
  match promises with
  | [] =>
      match slot "_" st with
      | BInst m => (All [(m, OpOpen)], st, evs ++ [EvBackend m OpOpen])
      | BUndefined => (Rejected TypeError, st, evs)
      end
  | _ :: _ =>
      (All promises,
       {| settings := settings st; contexts := contexts st;
          globalContext := globalContext st;
          externalContexts := externalContexts st;
          hasExternalContext := true; heap := heap st |}, evs)
  end.

(** The function that [load()] hands to [new Promise], without the writes
    of [copySettings] to the configuration objects, which [load] below
    adds.  What the executor throws rejects the promise. *)
Definition load_executor (st : State) : Promise * State * list Event :=
  match settings st with
  | None => (Rejected TypeError, st, [])
  | Some s =>
      match contextStorage s with
      | Some plugins =>
          match load_plugins s plugins plugins false (externalContexts st) with
          | (LoopReject e, ext, evs) => (Rejected e, with_externalContexts ext st, evs)
          | (LoopDone defaultIsAlias, ext, evs) =>
              let st := with_externalContexts ext st in
              match for_each_backend OpOpen (externalContexts st) with
              | (Throw e, evs') => (Rejected e, st, evs ++ evs')
              | (Return promises, evs') =>
                  let st :=
                    if defaultIsAlias then
                      with_externalContexts
                        (Props.set "default" (slot (default_target plugins) st)
                           (externalContexts st)) st
                    else st in
                  load_finish promises st (evs ++ evs')
              end
          end
      | None => load_finish [] st []
      end
  end.

(** The entry [pluginName] once the loop body has run for it: line 66
    writes [settings] into the entry's own [config] object when the entry
    has a [module] and a [config]; the [{}] that stands in for a missing
    [config] is not kept. *)
Definition entry_after (s : Settings) (pluginName : string) (entry : Entry) : Entry :=
  if String.eqb pluginName "_" then entry
  else
    match entry with
    | EntObj (Some m) (Some config) => EntObj (Some m) (Some (copySettings config s))
    | _ => entry
    end.

(** [settings.contextStorage] as the first loop leaves it: the entries the
    body has run for, up to and including the one that rejects, then the
    entries it has not reached. *)
Fixpoint plugins_after (s : Settings) (plugins todo : list (string * Entry))
    (defaultIsAlias : bool) (ext : list (string * BVal)) : list (string * Entry) :=
  match todo with
  | [] => []
  | (pluginName, entry) :: todo' =>
      (pluginName, entry_after s pluginName entry) ::
      match load_plugin s plugins pluginName entry defaultIsAlias ext with
      | Leave _ _ => todo'
      | Continue defaultIsAlias ext _ => plugins_after s plugins todo' defaultIsAlias ext
      end
  end.

(** The settings object after [load()]. *)
Definition settings_after (st : State) : option Settings :=
  match settings st with
  | Some s =>
      match contextStorage s with
      | Some plugins =>
          Some {| functionGlobalContext := functionGlobalContext s;
                  contextStorage :=
                    Some (plugins_after s plugins plugins false (externalContexts st));
                  userDir := userDir s |}
      | None => Some s
      end
  | None => None
  end.

(** [load()]: the executor runs at once, and [copySettings] has written
    into the configuration objects that the settings hold. *)
Definition load (st : State) : Promise * State * list Event :=
  let '(p, st', evs) := load_executor st in
  (p, with_settings (settings_after st) st', evs).

(** [getContextStorage(storage)] *)
Definition getContextStorage (storage : jsval) (st : State) : Completion BVal :=
  if Props.has_own (to_key storage) (externalContexts st) then
    Return (slot (to_key storage) st)
  else if Props.has_own "default" (externalContexts st) then
    Return (slot "default" st)
  else
    Throw (ContextError (to_key storage)).

(** [context.method(...)] on what was resolved. *)
Definition dispatch (context : Completion BVal) (call : BackendCall)
    : Completion (Backend * BackendCall) :=
  match context with
  | Throw e => Throw e
  | Return BUndefined => Throw TypeError
  | Return (BInst b) => Return (b, call)
  end.

(** [obj.get], closed over [scope]. *)
Definition scope_get (scope : string) (key : string) (storage callback : jsval)
    (st : State) : Completion (Backend * BackendCall) :=
  if negb (truthy storage) && negb (truthy callback) then
    dispatch (Return (slot "_" st)) (CGet scope key callback)
  else
    let '(storage, callback) :=
      if is_function storage then (JStr "default", storage) else (storage, callback) in
    if negb (is_function callback) then Throw ErrCallback
    else dispatch (getContextStorage storage st) (CGet scope key callback).

(** [obj.set], closed over [scope]. *)
Definition scope_set (scope : string) (key value : string) (storage callback : jsval)
    (st : State) : Completion (Backend * BackendCall) :=
  if negb (truthy storage) && negb (truthy callback) then
    dispatch (Return (slot "_" st)) (CSet scope key value callback)
  else
    let '(storage, callback) :=
      if is_function storage then (JStr "default", storage) else (storage, callback) in
    if truthy callback && negb (is_function callback) then Throw ErrCallback
    else dispatch (getContextStorage storage st) (CSet scope key value callback).

(** [obj.keys], closed over [scope]. *)
Definition scope_keys (scope : string) (storage callback : jsval)
    (st : State) : Completion (Backend * BackendCall) :=
  if negb (truthy storage) && negb (truthy callback) then
    dispatch (Return (slot "_" st)) (CKeys scope callback)
  else
    let '(storage, callback) :=
      if is_function storage then (JStr "default", storage) else (storage, callback) in
    if negb (is_function callback) then Throw ErrCallback
    else dispatch (getContextStorage storage st) (CKeys scope callback).

(** Calling the method stored in a property of a scope object. *)
Inductive Invocation :=
| InvGet (key : string) (storage callback : jsval)
| InvSet (key value : string) (storage callback : jsval)
| InvKeys (storage callback : jsval).

Definition method_name (i : Invocation) : string :=
  match i with InvGet _ _ _ => "get" | InvSet _ _ _ _ => "set" | InvKeys _ _ => "keys" end.

Definition invoke (obj : loc) (i : Invocation) (st : State)
    : Completion (Backend * BackendCall) :=
  match property obj (method_name i) st, i with
  | Some (VClosure MGet scope), InvGet key storage callback =>
      scope_get scope key storage callback st
  | Some (VClosure MSet scope), InvSet key value storage callback =>
      scope_set scope key value storage callback st
  | Some (VClosure MKeys scope), InvKeys storage callback =>
      scope_keys scope storage callback st
  | _, _ => Throw TypeError
  end.

(** [deleteContext(id, flowId)] *)
Definition deleteContext (id : string) (flowId : option string) (st : State)
    : Completion Promise * State * list Event :=
  if negb (hasExternalContext st) then
    let contextId := context_id id flowId in
    let st := with_contexts (delete contextId (contexts st)) st in
    match slot "_" st with
    | BInst m => (Return (Pending m (OpDelete contextId)), st,
                  [EvBackend m (OpDelete contextId)])
    | BUndefined => (Throw TypeError, st, [])
    end
  else
    (Return Resolved, st, []).

(** The second loop of [clean], over the identifiers [ids] of the cache. *)
Definition sweep (allNodes : list string) (ids : list string)
    (c : gmap string loc) : gmap string loc :=
  foldr (fun id c =>
           if negb (String.eqb id "global")
              && negb (bool_decide (split_head id ∈ allNodes))
           then delete id c else c) c ids.

(** [clean(flowConfig)], with [allNodes] the own keys of
    [flowConfig.allNodes]. *)
Definition clean (allNodes : list string) (st : State)
    : Completion Promise * State * list Event :=
  match for_each_backend (OpClean allNodes) (externalContexts st) with
  | (Throw e, evs) => (Throw e, st, evs)
  | (Return promises, evs) =>
      (Return (All promises),
       with_contexts (sweep allNodes (map fst (map_to_list (contexts st))) (contexts st)) st,
       evs)
  end.

(** [close()] *)
Definition close (st : State) : Completion Promise * State * list Event :=
  match for_each_backend OpClose (externalContexts st) with
  | (Throw e, evs) => (Throw e, st, evs)
  | (Return promises, evs) => (Return (All promises), st, evs)
  end.

End Runtime.

(** When a symbolic promise is fulfilled, given which backend operations
    complete: [Promise.all] waits for every member. *)
Definition fulfilled (completes : Backend -> BackendOp -> bool) (p : Promise) : bool :=
  match p with
  | Rejected _ => false
  | Resolved => true
  | Pending b op => completes b op
  | All ps => forallb (fun bo => completes bo.1 bo.2) ps
  end.

(** The instances held by a registry, in enumeration order. *)
Definition instances (ext : list (string * BVal)) : list Backend :=
  omap (fun slot => match slot.2 with BInst b => Some b | BUndefined => None end) ext.

Definition is_construct (ev : Event) : Prop :=
  match ev with EvConstruct _ _ => True | _ => False end.

Definition is_open (ev : Event) : Prop :=
  match ev with EvBackend _ OpOpen => True | _ => False end.

(** The own properties of a scope object that [getContext] has just
    created without a flow: the three methods, and [global] when the global
    scope exists. *)
Definition methods (id : string) : gmap string Value :=
  <["keys" := VClosure MKeys id]>
    (<["set" := VClosure MSet id]> (<["get" := VClosure MGet id]> ∅)).

Definition link_global (g : option loc) (o : gmap string Value) : gmap string Value :=
  match g with
  | Some g => <["global" := VRef g]> o
  | None => o
  end.

(** The backend-name and completion arguments of a call, and the call a
    scope named [scope] forwards once the completion is known. *)
Definition arguments (i : Invocation) : jsval * jsval :=
  match i with
  | InvGet _ storage callback => (storage, callback)
  | InvSet _ _ storage callback => (storage, callback)
  | InvKeys storage callback => (storage, callback)
  end.

Definition forwarded (scope : string) (i : Invocation) (callback : jsval) : BackendCall :=
  match i with
  | InvGet key _ _ => CGet scope key callback
  | InvSet key value _ _ => CSet scope key value callback
  | InvKeys _ _ => CKeys scope callback
  end.

(** The entries that the first loop of [load] refuses: a ["default"]
    alias to a name that is not declared, a module that cannot be
    required, a plugin that throws when called. *)
Inductive Invalid (require : string -> option Plugin) (s : Settings)
    (plugins : list (string * Entry)) : string -> Entry -> Prop :=
| invalid_alias target :
    Props.has_own target plugins = false ->
    Invalid require s plugins "default" (EntStr target)
| invalid_module name module config :
    name ≠ "_" ->
    require module = None ->
    Invalid require s plugins name (EntObj (Some (ModName module)) config)
| invalid_required_plugin name module plugin config message :
    name ≠ "_" ->
    require module = Some plugin ->
    plugin (copySettings (default empty_config config) s) = CtorThrow message ->
    Invalid require s plugins name (EntObj (Some (ModName module)) config)
| invalid_plugin name plugin config message :
    name ≠ "_" ->
    plugin (copySettings (default empty_config config) s) = CtorThrow message ->
    Invalid require s plugins name (EntObj (Some (ModFn plugin)) config).

(** ** The scope cache as the plain object it is *)

(** [contexts] is made by [{}] and so inherits from [Object.prototype].
    Two names do not behave in it like the others.  An assignment to
    ["__proto__"] sets the prototype of the object and creates no own
    property; the new prototype, a scope object made by [getContext],
    has no [hasOwnProperty] of its own and inherits from
    [Object.prototype] in turn, so the prototype has no effect that the
    functions can see and is not kept here.  And an own property
    ["hasOwnProperty"] hides the inherited method: from then on
    [contexts.hasOwnProperty(...)] calls a scope object, and throws.
    [getContext], [deleteContext] and [clean] above are the functions for
    the other names; those of this module are the functions for every
    name, and agree with them on the others (lemmas [js_getContext_plain],
    [js_clean_plain], [js_deleteContext_plain]). *)
Module Js.

(** Whether [contexts.hasOwnProperty] is still the inherited method. *)
Definition callable (c : gmap string loc) : bool :=
  negb (bool_decide (is_Some (c !! "hasOwnProperty"))).

(** [contexts.hasOwnProperty(k)] and, when it holds, [contexts[k]]. *)
Definition own (k : string) (c : gmap string loc) : option loc :=
  if String.eqb k "__proto__" then None else c !! k.

(** [contexts[k] = v] *)
Definition assign (k : string) (v : loc) (c : gmap string loc) : gmap string loc :=
  if String.eqb k "__proto__" then c else <[k := v]> c.

(** [delete contexts[k]] *)
Definition remove (k : string) (c : gmap string loc) : gmap string loc :=
  if String.eqb k "__proto__" then c else delete k c.

(** The body of [getContext], with the function itself as [self]. *)
Definition getContext_body
    (self : string -> option string -> State -> Completion loc * State)
    (localId : string) (flowId : option string) (st : State) : Completion loc * State :=
  let contextId := context_id localId flowId in
  if negb (callable (contexts st)) then (Throw TypeError, st)
  else
    match own contextId (contexts st) with
    | Some c => (Return c, st)
    | None =>
        let '(newContext, st) := createContext contextId None st in
        let '(linked, st) :=
          match given flowId with
          | Some f =>
              match self f None st with
              | (Return fl, st) => (Return tt, set_property newContext "flow" (VRef fl) st)
              | (Throw e, st) => (Throw e, st)
              end
          | None => (Return tt, st)
          end in
        match linked with
        | Throw e => (Throw e, st)
        | Return _ =>
            let st := match globalContext st with
                      | Some g => set_property newContext "global" (VRef g) st
                      | None => st
                      end in
            (Return newContext,
             with_contexts (assign contextId newContext (contexts st)) st)
        end
    end.

(** [getContext(localId, flowId)]; as above, the inner call passes no
    [flowId]. *)
Definition getContext : string -> option string -> State -> Completion loc * State :=
  getContext_body (getContext_body (fun _ _ st => (Throw TypeError, st))).

(** [deleteContext(id, flowId)] *)
Definition deleteContext (id : string) (flowId : option string) (st : State)
    : Completion Promise * State * list Event :=
  if negb (hasExternalContext st) then
    let contextId := context_id id flowId in
    let st := with_contexts (remove contextId (contexts st)) st in
    match slot "_" st with
    | BInst m => (Return (Pending m (OpDelete contextId)), st,
                  [EvBackend m (OpDelete contextId)])
    | BUndefined => (Throw TypeError, st, [])
    end
  else
    (Return Resolved, st, []).

(** [clean(flowConfig)]: the second loop calls [contexts.hasOwnProperty] in
    its first turn, and there is a first turn whenever that name is an own
    property. *)
Definition clean (allNodes : list string) (st : State)
    : Completion Promise * State * list Event :=
  match for_each_backend (OpClean allNodes) (externalContexts st) with
  | (Throw e, evs) => (Throw e, st, evs)
  | (Return promises, evs) =>
      if negb (callable (contexts st)) then (Throw TypeError, st, evs)
      else
        (Return (All promises),
         with_contexts (sweep allNodes (map fst (map_to_list (contexts st))) (contexts st)) st,
         evs)
  end.

(** A call of an exported function, [init] included. *)
Inductive Call :=
| DoGet (localId : string) (flowId : option string)
| DoDelete (id : string) (flowId : option string)
| DoClean (allNodes : list string)
| DoLoad
| DoClose
| DoInit (s : Settings).

(** The state a call leaves. *)
Definition perform (require : string -> option Plugin) (memory : Backend)
    (c : Call) (st : State) : State :=
  match c with
  | DoGet localId flowId => (getContext localId flowId st).2
  | DoDelete id flowId => (deleteContext id flowId st).1.2
  | DoClean allNodes => (clean allNodes st).1.2
  | DoLoad => (load require st).1.2
  | DoClose => (close st).1.2
  | DoInit s => (init memory s st).1
  end.

Definition perform_all (require : string -> option Plugin) (memory : Backend)
    (calls : list Call) (st : State) : State :=
  foldl (fun st c => perform require memory c st) st calls.


(** The names that behave like any other in [contexts], and the requests
    that only use such names. *)
Definition plain (k : string) : Prop := k ≠ "__proto__" /\ k ≠ "hasOwnProperty".

Definition plain_request (localId : string) (flowId : option string) : Prop :=
  plain (context_id localId flowId) /\
  match given flowId with Some f => plain f | None => True end.

(** The own property that [contexts[k] = v] creates, if any. *)
Definition named (k : string) : gset string :=
  if String.eqb k "__proto__" then ∅ else {[k]}.

(** The requests that leave [contexts.hasOwnProperty] alone: neither the
    identifier asked for nor the flow is ["hasOwnProperty"]; and the calls
    that only make such requests. *)
Definition harmless (localId : string) (flowId : option string) : Prop :=
  context_id localId flowId ≠ "hasOwnProperty" /\
  given flowId ≠ Some "hasOwnProperty".

Definition harmless_call (c : Call) : Prop :=
  match c with
  | DoGet localId flowId => harmless localId flowId
  | _ => True
  end.

(** The calls that leave the entry [id] of the cache in place: all but a
    [deleteContext] of that identifier, a [clean] that sweeps it, and, for
    ["global"], an [init]. *)
Definition spares (id : string) (c : Call) : Prop :=
  match c with
  | DoDelete i flowId => context_id i flowId ≠ id
  | DoClean allNodes => id = "global" \/ split_head id ∈ allNodes
  | DoInit _ => id ≠ "global"
  | _ => True
  end.

End Js.


(** ** Configurations used as examples *)

Definition mem : Backend := BackendId 0.
Definition store1 : Backend := BackendId 1.

(** No module can be required by name. *)
Definition no_modules : string -> option Plugin := fun _ => None.

Definition settings_plain : Settings :=
  {| functionGlobalContext := None; contextStorage := None; userDir := None |}.

(** [init(settings_plain)] on a freshly required module. *)
Definition started : State := (init mem settings_plain (initial [])).1.

(** A plugin that returns the instance [store1]. *)
Definition plugin_store1 : Plugin := fun _ => CtorReturn (BInst store1).

Definition settings_with (plugins : list (string * Entry)) : Settings :=
  {| functionGlobalContext := None; contextStorage := Some plugins; userDir := None |}.

(** [{ default: "default" }] *)
Definition settings_self_alias : Settings :=
  settings_with [("default", EntStr "default")].

(** [{}] *)
Definition settings_empty : Settings := settings_with [].

(** [{ _: { module: plugin_store1 } }] *)
Definition settings_reserved : Settings :=
  settings_with [("_", EntObj (Some (ModFn plugin_store1)) None)].

(** [{ store1: { module: plugin_store1 }, default: "nowhere" }] *)
Definition settings_bad_alias : Settings :=
  settings_with [("store1", EntObj (Some (ModFn plugin_store1)) None);
                 ("default", EntStr "nowhere")].

(** [{ store1: { module: plugin_store1 }, default: "store1" }] *)
Definition settings_alias : Settings :=
  settings_with [("store1", EntObj (Some (ModFn plugin_store1)) None);
                 ("default", EntStr "store1")].


(** [init(s)] then [load()] on a freshly required module. *)
Definition loaded (s : Settings) : Promise * State * list Event :=
  load no_modules (init mem s (initial [])).1.

(** A seed for the global scope that already has a [get] entry, and
    settings that refer to it. *)
Definition seed_object : gmap string Value :=
  <["get" := VData "mine"]> (<["count" := VData "0"]> ∅).

Definition settings_seeded : Settings :=
  {| functionGlobalContext := Some 0; contextStorage := None; userDir := None |}.

(** ** Calls of the exported functions, one after the other *)

(** A call of [get], [delete], [clean], [load] or [close] of the module. *)
Inductive Call :=
| CallGet (localId : string) (flowId : option string)
| CallDelete (id : string) (flowId : option string)
| CallClean (allNodes : list string)
| CallLoad
| CallClose.

(** The state a call leaves. *)
Definition perform (require : string -> option Plugin) (c : Call) (st : State) : State :=
  match c with
  | CallGet localId flowId => (getContext localId flowId st).2
  | CallDelete id flowId => (deleteContext id flowId st).1.2
  | CallClean allNodes => (clean allNodes st).1.2
  | CallLoad => (load require st).1.2
  | CallClose => (close st).1.2
  end.

Definition perform_all (require : string -> option Plugin) (calls : list Call)
    (st : State) : State :=
  foldl (fun st c => perform require c st) st calls.

(** Every cached scope object lives in the heap and carries the three
    methods closed over the identifier it is cached under. *)
Definition scoped (st : State) : Prop :=
  forall id c, contexts st !! id = Some c ->
    c < length (heap st) /\
    property c "get" st = Some (VClosure MGet id) /\
    property c "set" st = Some (VClosure MSet id) /\
    property c "keys" st = Some (VClosure MKeys id).

(** The names of the plugin calls among the events. *)
Definition constructed (evs : list Event) : list string :=
  omap (fun ev => match ev with EvConstruct name _ => Some name | _ => None end) evs.

(** The entries of the configuration for which [load] calls a plugin: all
    but the reserved name and the ["default"] alias. *)
Definition declares_backend (entry : string * Entry) : bool :=
  negb (String.eqb entry.1 "_") &&
  negb (String.eqb entry.1 "default" &&
        match entry.2 with EntStr _ => true | _ => false end).

(** * Properties *)

(** ** Ordered objects *)

Section PropsFacts.
Context {V : Type}.
Implicit Types (o : list (string * V)) (k : string) (v : V).

Lemma has_own_get k o : Props.has_own k o = true <-> is_Some (Props.get k o).
Proof.
  induction o as [|[k' v'] o IH]; simpl.
  - split; [discriminate | intros [? ?]; discriminate].
  - destruct (String.eqb k k'); [split; eauto | exact IH].
Qed.

Lemma get_replace k k' v o :
  Props.get k' (Props.replace k v o) =
    if String.eqb k' k && Props.has_own k o then Some v else Props.get k' o.
Proof.
  induction o as [|[k0 v0] o IH]; simpl; [by rewrite andb_false_r|].
  destruct (String.eqb k k0) eqn:E; simpl.
  - apply String.eqb_eq in E. subst k0.
    destruct (String.eqb k' k); simpl; done.
  - rewrite IH. destruct (String.eqb k' k0) eqn:E'; [|done].
    apply String.eqb_eq in E'. subst k0.
    destruct (String.eqb k' k) eqn:E''; [|done].
    apply String.eqb_eq in E''. subst k'. by rewrite String.eqb_refl in E.
Qed.

Lemma get_create k k' v o :
  Props.has_own k o = false ->
  Props.get k' (Props.create k v o) = if String.eqb k' k then Some v else Props.get k' o.
Proof.
  induction o as [|[k0 v0] o IH]; simpl; [done|].
  destruct (String.eqb k k0) eqn:E0; [done|]. intros Hown.
  destruct (enumerated_before k k0); simpl.
  - by destruct (String.eqb k' k).
  - rewrite IH by done. destruct (String.eqb k' k0) eqn:E1; [|done].
    apply String.eqb_eq in E1. subst k0.
    destruct (String.eqb k' k) eqn:E; [|done].
    apply String.eqb_eq in E. subst k'. by rewrite String.eqb_refl in E0.
Qed.

Lemma get_set_eq k v o : Props.get k (Props.set k v o) = Some v.
Proof.
  unfold Props.set. destruct (Props.has_own k o) eqn:E.
  - by rewrite get_replace, String.eqb_refl, E.
  - by rewrite get_create, String.eqb_refl.
Qed.

Lemma get_set_ne k k' v o : k ≠ k' -> Props.get k' (Props.set k v o) = Props.get k' o.
Proof.
  intros Hne. assert (String.eqb k' k = false) as E by (by apply String.eqb_neq).
  unfold Props.set. destruct (Props.has_own k o) eqn:Hown.
  - by rewrite get_replace, E.
  - by rewrite get_create, E.
Qed.

End PropsFacts.

(** ** State bookkeeping *)

Lemma createContext_fresh id st :
  createContext id None st =
    (length (heap st),
     with_heap (heap st ++
       [methods id]) st).
Proof.
  unfold createContext, new_object, set_property, with_heap; simpl.
  do 2 f_equal.
  rewrite !alter_app_r_alt by lia.
  by rewrite Nat.sub_diag.
Qed.

Lemma set_property_last h o k v st :
  set_property (length h) k v (with_heap (h ++ [o]) st) = with_heap (h ++ [<[k := v]> o]) st.
Proof.
  unfold set_property, with_heap; simpl. f_equal.
  rewrite alter_app_r_alt by lia. by rewrite Nat.sub_diag.
Qed.

Lemma string_append_length (a b : string) :
  String.length (a +:+ b) = String.length a + String.length b.
Proof. induction a as [|c a IH]; simpl; [done | by rewrite IH]. Qed.

(** A flow identifier is never the identifier of one of its nodes. *)
Lemma flow_id_not_node_id (n f : string) : f ≠ n +:+ ":" +:+ f.
Proof.
  intros H. apply (f_equal String.length) in H.
  rewrite !string_append_length in H. simpl in H. lia.
Qed.

(** [load] is its executor but for the settings. *)
Lemma load_executor_eq require st :
  load require st
  = ((load_executor require st).1.1,
     with_settings (settings_after require st) (load_executor require st).1.2,
     (load_executor require st).2).
Proof. unfold load. by destruct (load_executor require st) as [[p st'] evs]. Qed.

(** Reading [load] through its executor. *)
Ltac load_by_executor :=
  rewrite ?load_executor_eq in *;
  cbn [fst snd with_settings settings contexts globalContext externalContexts
       hasExternalContext heap] in *.

(** ** The scope cache: [getContext] *)

Lemma getContext_body_no_flow self self' localId st :
  getContext_body self localId None st = getContext_body self' localId None st.
Proof. reflexivity. Qed.

(** The body only ever calls [self] without a flow. *)
Lemma getContext_body_ext self self' localId flowId st :
  (forall l s, self l None s = self' l None s) ->
  getContext_body self localId flowId st = getContext_body self' localId flowId st.
Proof.
  intros Hself. unfold getContext_body.
  destruct (contexts st !! context_id localId flowId); [done|].
  destruct (createContext _ None st) as [newContext st1].
  destruct (given flowId) as [f|]; [|done].
  by rewrite Hself.
Qed.

(** [getContext] satisfies the recursive equation of the source. *)
Lemma getContext_unfold localId flowId st :
  getContext localId flowId st = getContext_body getContext localId flowId st.
Proof.
  unfold getContext. apply getContext_body_ext.
  intros l s. apply getContext_body_no_flow.
Qed.

Lemma getContext_hit localId flowId st c :
  contexts st !! context_id localId flowId = Some c ->
  getContext localId flowId st = (c, st).
Proof. intros H. rewrite getContext_unfold. unfold getContext_body. by rewrite H. Qed.

(** A scope without a flow that is not cached yet: one object is allocated
    and cached, nothing else changes. *)
Lemma getContext_no_flow_miss localId st :
  contexts st !! localId = None ->
  getContext localId None st =
    (length (heap st),
     with_contexts (<[localId := length (heap st)]> (contexts st))
       (with_heap (heap st ++ [link_global (globalContext st) (methods localId)]) st)).
Proof.
  intros H. rewrite getContext_unfold. unfold getContext_body.
  change (context_id localId None) with localId.
  rewrite H, createContext_fresh. simpl.
  destruct (globalContext st) as [g|]; simpl; [|done].
  by rewrite set_property_last.
Qed.

(** The same with a flow: the node's object is allocated first, then the
    flow's scope is looked up or created, then both links are set. *)
Lemma getContext_flow_miss localId f st :
  f ≠ "" ->
  contexts st !! (localId +:+ ":" +:+ f) = None ->
  let c := length (heap st) in
  let st1 := with_heap (heap st ++ [methods (localId +:+ ":" +:+ f)]) st in
  let '(fl, st2) := getContext f None st1 in
  getContext localId (Some f) st =
    (c, with_contexts (<[localId +:+ ":" +:+ f := c]> (contexts st2))
          (with_heap
             (alter (fun o => link_global (globalContext st2) (<["flow" := VRef fl]> o))
                c (heap st2)) st2)).
Proof.
  intros Hf H c st1.
  destruct (getContext f None st1) as [fl st2] eqn:E.
  rewrite getContext_unfold. unfold getContext_body, context_id, given.
  apply String.eqb_neq in Hf. rewrite Hf, H, createContext_fresh.
  fold st1. rewrite E. simpl. fold c.
  destruct (globalContext st2) as [g|]; simpl; [|done].
  unfold set_property, with_heap, with_contexts; simpl.
  by rewrite list_alter_alter_eq.
Qed.

Lemma given_Some flowId f : given flowId = Some f <-> flowId = Some f /\ f ≠ "".
Proof.
  unfold given. destruct flowId as [f'|]; [|by split; [|intros [? _]]].
  destruct (String.eqb f' "") eqn:E.
  - apply String.eqb_eq in E. split; [done|]. intros [[= ->] Hf]. done.
  - apply String.eqb_neq in E. split.
    + by intros [= ->].
    + by intros [[= ->] _].
Qed.

Lemma context_id_flow localId f : f ≠ "" -> context_id localId (Some f) = localId +:+ ":" +:+ f.
Proof. intros Hf. unfold context_id, given. apply String.eqb_neq in Hf. by rewrite Hf. Qed.

Lemma context_id_no_flow localId flowId : given flowId = None -> context_id localId flowId = localId.
Proof. intros H. unfold context_id. by rewrite H. Qed.

(** Case analysis on a call: the scope is cached, or it is created with
    or without a flow. *)
Lemma getContext_cases localId flowId st :
  (exists c, contexts st !! context_id localId flowId = Some c /\
             getContext localId flowId st = (c, st)) \/
  (given flowId = None /\ contexts st !! localId = None /\
   getContext localId flowId st = getContext localId None st) \/
  (exists f, flowId = Some f /\ f ≠ "" /\ contexts st !! (localId +:+ ":" +:+ f) = None).
Proof.
  destruct (contexts st !! context_id localId flowId) as [c|] eqn:E.
  { left. eauto using getContext_hit. }
  right. destruct (given flowId) as [f|] eqn:G.
  - right. apply given_Some in G as [-> Hf]. exists f.
    by rewrite context_id_flow in E.
  - left. rewrite context_id_no_flow in E by done. do 2 (split; [done|]).
    rewrite (getContext_unfold localId flowId), (getContext_unfold localId None).
    unfold getContext_body.
    rewrite (context_id_no_flow _ _ G). change (context_id localId None) with localId.
    rewrite E. change (given None) with (@None string). by rewrite G.
Qed.

(** [getContext] only adds entries to the cache ... *)
Lemma getContext_no_flow_keeps localId st k c :
  contexts st !! k = Some c -> contexts (getContext localId None st).2 !! k = Some c.
Proof.
  intros Hk. destruct (contexts st !! localId) as [c'|] eqn:E.
  - by rewrite (getContext_hit localId None st c' E).
  - rewrite getContext_no_flow_miss by done. simpl.
    rewrite lookup_insert_ne; [done | congruence].
Qed.

Lemma getContext_keeps localId flowId st k c :
  contexts st !! k = Some c -> contexts (getContext localId flowId st).2 !! k = Some c.
Proof.
  intros Hk.
  destruct (getContext_cases localId flowId st)
    as [(c' & _ & ->)|[(_ & _ & ->)|(f & -> & Hf & E)]].
  - done.
  - by apply getContext_no_flow_keeps.
  - pose proof (getContext_flow_miss localId f st Hf E) as H. simpl in H.
    destruct (getContext f None _) as [fl st2] eqn:E2. rewrite H. simpl.
    rewrite lookup_insert_ne by congruence.
    change st2 with (fl, st2).2. rewrite <- E2.
    by apply getContext_no_flow_keeps.
Qed.

(** ... and what it returns is cached under the identifier. *)
Lemma getContext_caches localId flowId st :
  contexts (getContext localId flowId st).2 !! context_id localId flowId
  = Some (getContext localId flowId st).1.
Proof.
  destruct (getContext_cases localId flowId st)
    as [(c' & Hc & ->)|[(G & E & ->)|(f & -> & Hf & E)]].
  - done.
  - rewrite context_id_no_flow, getContext_no_flow_miss by done. simpl.
    by rewrite lookup_insert_eq.
  - rewrite context_id_flow by done.
    pose proof (getContext_flow_miss localId f st Hf E) as H'. simpl in H'.
    destruct (getContext f None _) as [fl st2]. rewrite H'. simpl.
    by rewrite lookup_insert_eq.
Qed.

(** The heap only grows, and [getContext] never writes to an object that
    existed before the call. *)
Lemma getContext_no_flow_heap localId st :
  exists more, heap (getContext localId None st).2 = heap st ++ more.
Proof.
  destruct (contexts st !! localId) as [c'|] eqn:E.
  - rewrite (getContext_hit localId None st c' E). exists []. by rewrite app_nil_r.
  - rewrite getContext_no_flow_miss by done. simpl. eauto.
Qed.

Lemma getContext_heap localId flowId st :
  exists more, heap (getContext localId flowId st).2 = heap st ++ more.
Proof.
  destruct (getContext_cases localId flowId st)
    as [(c' & _ & ->)|[(_ & _ & ->)|(f & -> & Hf & E)]].
  - exists []. by rewrite app_nil_r.
  - apply getContext_no_flow_heap.
  - pose proof (getContext_flow_miss localId f st Hf E) as H. simpl in H.
    destruct (getContext_no_flow_heap f
                (with_heap (heap st ++ [methods (localId +:+ ":" +:+ f)]) st)) as [more Hm].
    destruct (getContext f None _) as [fl st2]. rewrite H. simpl in *.
    rewrite Hm, <- app_assoc, alter_app_r_alt by lia. eauto.
Qed.

Lemma getContext_property localId flowId st c k v :
  property c k st = Some v -> property c k (getContext localId flowId st).2 = Some v.
Proof.
  unfold property. intros H.
  destruct (getContext_heap localId flowId st) as [more ->].
  destruct (heap st !! c) as [o|] eqn:E; [|done].
  by rewrite (lookup_app_l_Some _ _ _ _ E).
Qed.

Lemma getContext_globalContext localId flowId st :
  globalContext (getContext localId flowId st).2 = globalContext st.
Proof.
  destruct (getContext_cases localId flowId st)
    as [(c' & _ & ->)|[(_ & E & ->)|(f & -> & Hf & E)]].
  - done.
  - by rewrite getContext_no_flow_miss.
  - pose proof (getContext_flow_miss localId f st Hf E) as H. simpl in H.
    assert (forall s, globalContext (getContext f None s).2 = globalContext s) as Hg.
    { intros s. destruct (contexts s !! f) as [c|] eqn:E'.
      - by rewrite (getContext_hit f None s c E').
      - by rewrite getContext_no_flow_miss. }
    specialize (Hg (with_heap (heap st ++ [methods (localId +:+ ":" +:+ f)]) st)).
    destruct (getContext f None _) as [fl st2]. by rewrite H.
Qed.


(** ** The factory *)

(** C10 — the factory works on the seed itself.  Given a seed object,
    [createContext] returns the seed's own location, allocates nothing, and
    the object at that location is the seed's with [get], [set] and [keys]
    overwritten by the methods of the scope; no other object or variable
    changes.  In particular the global scope that [init] creates is the
    [functionGlobalContext] object of the settings, modified in place. *)
Theorem createContext_seed_in_place id seed o st :
  heap st !! seed = Some o ->
  (let '(obj, st') := createContext id (Some seed) st in
   obj = seed /\
   length (heap st') = length (heap st) /\
   heap st' !! seed
   = Some (<["keys" := VClosure MKeys id]>
             (<["set" := VClosure MSet id]> (<["get" := VClosure MGet id]> o))) /\
   (forall l, l ≠ seed -> heap st' !! l = heap st !! l) /\
   st' = with_heap (heap st') st) /\
  (forall memory s,
     functionGlobalContext s = Some seed ->
     let st' := (init memory s st).1 in
     globalContext st' = Some seed /\
     contexts st' !! "global" = Some seed /\
     length (heap st') = length (heap st) /\
     heap st' !! seed
     = Some (<["keys" := VClosure MKeys "global"]>
               (<["set" := VClosure MSet "global"]>
                  (<["get" := VClosure MGet "global"]> o)))).
Proof.
  intros Ho.
  assert (forall h : list (gmap string Value), h !! seed = Some o ->
            alter (fun o => <["keys" := VClosure MKeys id]> o) seed
              (alter (fun o => <["set" := VClosure MSet id]> o) seed
                 (alter (fun o => <["get" := VClosure MGet id]> o) seed h)) !! seed
            = Some (<["keys" := VClosure MKeys id]>
                      (<["set" := VClosure MSet id]> (<["get" := VClosure MGet id]> o))))
    as Hseed.
  { intros h Hh. rewrite !list_lookup_alter_eq, Hh. done. }
  split.
  - unfold createContext, set_property, with_heap; simpl.
    split; [done|]. split; [by rewrite !length_alter|]. split; [by apply Hseed|].
    split; [|done]. intros l Hl. by rewrite !list_lookup_alter_ne.
  - intros memory s Hs. unfold init. rewrite Hs.
    unfold createContext, set_property, with_heap, with_contexts,
      with_externalContexts; simpl.
    split; [done|]. split; [by rewrite lookup_insert_eq|].
    split; [by rewrite !length_alter|].
    rewrite !list_lookup_alter_eq, Ho. done.
Qed.

Lemma createContext_seed_in_place_witness :
  heap (initial [seed_object]) !! 0 = Some seed_object /\
  (let st' := (init mem settings_seeded (initial [seed_object])).1 in
   globalContext st' = Some 0 /\
   contexts st' !! "global" = Some 0 /\
   length (heap st') = 1 /\
   heap st' !! 0
   = Some (<["keys" := VClosure MKeys "global"]>
             (<["set" := VClosure MSet "global"]>
                (<["get" := VClosure MGet "global"]> seed_object))) /\
   property 0 "get" st' = Some (VClosure MGet "global") /\
   property 0 "count" st' = Some (VData "0")).
Proof.
  split; [done|].
  pose proof (proj2 (createContext_seed_in_place "global" 0 seed_object
                       (initial [seed_object]) eq_refl) mem settings_seeded eq_refl)
    as (Hg & Hc & Hl & Hh).
  repeat (split; [assumption|]). by vm_compute.
Defined.

(** ** Sweeping: [clean] *)

Lemma sweep_cons allNodes a ids (c : gmap string loc) :
  sweep allNodes (a :: ids) c =
    if negb (String.eqb a "global") && negb (bool_decide (split_head a ∈ allNodes))
    then delete a (sweep allNodes ids c) else sweep allNodes ids c.
Proof. reflexivity. Qed.

Lemma sweep_lookup allNodes ids (c : gmap string loc) id :
  sweep allNodes ids c !! id =
    if decide (id ∈ ids /\ id ≠ "global" /\ split_head id ∉ allNodes)
    then None else c !! id.
Proof.
  induction ids as [|a ids IH].
  { rewrite decide_False; [done|]. intros [H _]. by apply elem_of_nil in H. }
  rewrite sweep_cons.
  assert (forall P : Prop, (id ∈ ids /\ P) -> id ∈ a :: ids /\ P) as Hfurther.
  { intros P [? ?]. split; [by apply list_elem_of_further | done]. }
  destruct (String.eqb a "global") eqn:Eg; cbn [negb andb].
  - apply String.eqb_eq in Eg. subst a. rewrite IH.
    destruct (decide (id ∈ ids /\ _)) as [H|H].
    + rewrite decide_True; [done | by apply Hfurther].
    + rewrite decide_False; [done|]. intros (Hin & Hne & Hlive).
      apply elem_of_cons in Hin as [->|Hin]; [done|]. by apply H.
  - apply String.eqb_neq in Eg.
    destruct (bool_decide (split_head a ∈ allNodes)) eqn:El; cbn [negb].
    + apply bool_decide_eq_true in El. rewrite IH.
      destruct (decide (id ∈ ids /\ _)) as [H|H].
      * rewrite decide_True; [done | by apply Hfurther].
      * rewrite decide_False; [done|]. intros (Hin & Hne & Hlive).
        apply elem_of_cons in Hin as [->|Hin]; [done|]. by apply H.
    + apply bool_decide_eq_false in El.
      destruct (decide (a = id)) as [->|Hne].
      * rewrite lookup_delete_eq. rewrite decide_True; [done|].
        split; [by apply list_elem_of_here | done].
      * rewrite lookup_delete_ne by done. rewrite IH.
        destruct (decide (id ∈ ids /\ _)) as [H|H].
        -- rewrite decide_True; [done | by apply Hfurther].
        -- rewrite decide_False; [done|]. intros (Hin & Hg & Hlive).
           apply elem_of_cons in Hin as [->|Hin]; [done|]. by apply H.
Qed.

(** Sweeping over the identifiers of the cache itself. *)
Lemma sweep_cache_lookup allNodes (c : gmap string loc) id :
  sweep allNodes (map fst (map_to_list c)) c !! id =
    if decide (id ≠ "global" /\ split_head id ∉ allNodes) then None else c !! id.
Proof.
  rewrite sweep_lookup.
  destruct (c !! id) as [l|] eqn:E.
  - assert (id ∈ map fst (map_to_list c)) as Hin.
    { apply (list_elem_of_fmap_2 fst _ (id, l)). by apply elem_of_map_to_list. }
    destruct (decide (id ≠ "global" /\ _)) as [H|H].
    + by rewrite decide_True.
    + rewrite decide_False; [done|]. intros [_ H']. by apply H.
  - by repeat case_decide.
Qed.

Lemma for_each_backend_defined op ext :
  Forall (fun slot => slot.2 ≠ BUndefined) ext ->
  for_each_backend op ext
  = (Return (map (fun b => (b, op)) (instances ext)),
     map (fun b => EvBackend b op) (instances ext)).
Proof.
  induction 1 as [|[name [|b]] ext Hd _ IH]; simpl in *; [done|done|].
  by rewrite IH.
Qed.

Lemma instances_get name b ext :
  Props.get name ext = Some (BInst b) -> b ∈ instances ext.
Proof.
  induction ext as [|[k v] ext IH]; simpl; [done|].
  destruct (String.eqb name k).
  - intros [= ->]. unfold instances. simpl. apply list_elem_of_here.
  - intros H. unfold instances. simpl. destruct v; simpl.
    + by apply IH.
    + apply list_elem_of_further. by apply IH.
Qed.



(** ** Scope methods *)

(** Looking up a key in a stack of insertions under literal keys. *)
Ltac lookup_inserted :=
  repeat (rewrite lookup_insert_ne by done); by rewrite lookup_insert_eq.

Lemma createContext_methods id seed st :
  (forall l, seed = Some l -> is_Some (heap st !! l)) ->
  let '(obj, st') := createContext id seed st in
  property obj "get" st' = Some (VClosure MGet id) /\
  property obj "set" st' = Some (VClosure MSet id) /\
  property obj "keys" st' = Some (VClosure MKeys id).
Proof.
  intros Hseed. destruct seed as [l|].
  - destruct (Hseed l eq_refl) as [o Ho].
    unfold createContext, set_property, property, with_heap; simpl.
    rewrite !list_lookup_alter_eq, Ho.
    cbn [fmap option_fmap option_map mbind option_bind].
    repeat split; lookup_inserted.
  - rewrite createContext_fresh. unfold property, methods. simpl.
    rewrite lookup_app_r, Nat.sub_diag by lia.
    cbn [lookup list_lookup mbind option_bind].
    repeat split; lookup_inserted.
Qed.

Lemma getContextStorage_default_missing st :
  Props.has_own "default" (externalContexts st) = false ->
  getContextStorage (JStr "default") st = Throw (ContextError "default").
Proof. intros H. unfold getContextStorage. simpl. by rewrite H. Qed.

Lemma getContextStorage_default_bound st v :
  Props.get "default" (externalContexts st) = Some v ->
  getContextStorage (JStr "default") st = Return v.
Proof.
  intros H. unfold getContextStorage, slot. simpl.
  assert (Props.has_own "default" (externalContexts st) = true) as ->.
  { apply has_own_get. by rewrite H. }
  by rewrite H.
Qed.

(** C1, as amended — which backend a scope method reaches when no backend
    name is given.  For every scope object made by the factory and every
    call of its [get], [set] or [keys]: if neither a backend name nor a
    completion is supplied, the call is forwarded to the fallback bound to
    ["_"]; if a function stands in the backend-name position, it becomes
    the completion and the name ["default"] is resolved, so the call is
    forwarded to the backend bound to ["default"], and throws a
    [ContextError] when no such binding exists. *)
Theorem scope_methods_dispatch id seed st i :
  (forall l, seed = Some l -> is_Some (heap st !! l)) ->
  let '(obj, st') := createContext id seed st in
  let '(storage, callback) := arguments i in
  (truthy storage = false -> truthy callback = false ->
   forall m, slot "_" st' = BInst m ->
   invoke obj i st' = Return (m, forwarded id i callback)) /\
  (is_function storage = true ->
   (Props.has_own "default" (externalContexts st') = false ->
    invoke obj i st' = Throw (ContextError "default")) /\
   (forall b, Props.get "default" (externalContexts st') = Some (BInst b) ->
    invoke obj i st' = Return (b, forwarded id i storage))).
Proof.
  intros Hseed. pose proof (createContext_methods id seed st Hseed) as Hm.
  destruct (createContext id seed st) as [obj st'].
  destruct Hm as (Hget & Hset & Hkeys).
  destruct i as [key storage callback|key value storage callback|storage callback];
    cbn [arguments forwarded]; unfold invoke; cbn [method_name];
    rewrite ?Hget, ?Hset, ?Hkeys;
    unfold scope_get, scope_set, scope_keys.
  all: split.
  all: try (intros -> -> m ->; reflexivity).
  all: intros Hfun; destruct storage; try discriminate Hfun; cbn.
  all: split; [intros Hnone; by rewrite getContextStorage_default_missing
              |intros b Hb; by rewrite (getContextStorage_default_bound _ _ Hb)].
Qed.

Lemma scope_methods_dispatch_witness :
  let '(obj, st') := createContext "n1" None started in
  invoke obj (InvGet "count" JUndefined JUndefined) st'
  = Return (mem, CGet "n1" "count" JUndefined) /\
  invoke obj (InvKeys (JFun "cb") JUndefined) st' = Throw (ContextError "default").
Proof.
  assert (forall l, @None nat = Some l -> is_Some (heap started !! l)) as Hseed
    by (by intros l [=]).
  pose proof (scope_methods_dispatch "n1" None started
                (InvGet "count" JUndefined JUndefined) Hseed) as Hget.
  pose proof (scope_methods_dispatch "n1" None started
                (InvKeys (JFun "cb") JUndefined) Hseed) as Hkeys.
  destruct (createContext "n1" None started) as [obj st'] eqn:E.
  cbn [arguments] in Hget, Hkeys.
  destruct Hget as [Hget _]. destruct Hkeys as [_ Hkeys].
  vm_compute in E. injection E as <- <-. split.
  - apply Hget; reflexivity.
  - apply Hkeys; reflexivity.
Defined.

(** C1, as stated, fails for [get(key, cb)]: after [init] with no
    ["default"] backend, the call on the scope of node [n1] throws a
    [ContextError] instead of reaching the fallback. *)
Lemma get_with_callback_misses_fallback :
  let '(obj, st) := getContext "n1" None started in
  slot "_" st = BInst mem /\
  Props.has_own "default" (externalContexts st) = false /\
  invoke obj (InvGet "count" (JFun "cb") JUndefined) st = Throw (ContextError "default") /\
  invoke obj (InvGet "count" (JFun "cb") JUndefined) st
  ≠ Return (mem, CGet "n1" "count" (JFun "cb")).
Proof. vm_compute. repeat split. intros [=]. Qed.

(** ** Loading the configured backends *)

(** Every way through the loop body, at once. *)
Ltac load_plugin_cases require pluginName entry :=
  unfold load_plugin;
  destruct (String.eqb pluginName "_") eqn:?;
  [|destruct (String.eqb pluginName "default") eqn:?;
    destruct entry as [?target|[[?module|?plugin]|] ?config|];
    repeat match goal with
      | |- context [negb (Props.has_own ?t ?p)] => destruct (Props.has_own t p) eqn:?
      | |- context [require ?m] => destruct (require m) as [?plugin|] eqn:?
      | |- context [match ?p (copySettings ?c ?s) with _ => _ end] =>
          destruct (p (copySettings c s)) as [?message|?v] eqn:?
      end; cbn [negb]].

Section Load.
Variable require : string -> option Plugin.
Variable s : Settings.
Variable plugins : list (string * Entry).

Lemma load_plugin_reserved entry a ext :
  load_plugin require s plugins "_" entry a ext = Continue a ext [].
Proof. reflexivity. Qed.

Lemma load_plugin_events pluginName entry a ext :
  match load_plugin require s plugins pluginName entry a ext with
  | Continue _ _ evs | Leave _ evs => Forall is_construct evs
  end.
Proof. load_plugin_cases require pluginName entry; by repeat constructor. Qed.

(** The loop body binds no other name than the entry's, and never ["_"]. *)
Lemma load_plugin_binds pluginName entry a ext a' ext' evs k :
  load_plugin require s plugins pluginName entry a ext = Continue a' ext' evs ->
  k = "_" \/ k ≠ pluginName ->
  Props.get k ext' = Props.get k ext.
Proof.
  intros H Hk. revert H.
  load_plugin_cases require pluginName entry; intros [= <- <- <-]; try done.
  all: apply get_set_ne; destruct Hk as [->|Hk]; [|done].
  all: intros ->; discriminate.
Qed.

Lemma load_plugin_invalid pluginName entry a ext :
  Invalid require s plugins pluginName entry ->
  exists e evs, load_plugin require s plugins pluginName entry a ext = Leave e evs.
Proof.
  destruct 1 as [target Ht|name module config Hn Hm
                |name module plugin config message Hn Hm Hp
                |name plugin config message Hn Hp]; unfold load_plugin.
  - simpl. rewrite Ht. simpl. eauto.
  - apply String.eqb_neq in Hn. rewrite Hn, Hm. destruct (String.eqb name "default"); eauto.
  - apply String.eqb_neq in Hn. rewrite Hn, Hm, Hp. destruct (String.eqb name "default"); eauto.
  - apply String.eqb_neq in Hn. rewrite Hn, Hp. destruct (String.eqb name "default"); eauto.
Qed.

Lemma load_plugins_events todo a ext :
  Forall is_construct (load_plugins require s plugins todo a ext).2.
Proof.
  revert a ext. induction todo as [|[pluginName entry] todo IH]; intros a ext; simpl.
  - constructor.
  - pose proof (load_plugin_events pluginName entry a ext) as H.
    destruct (load_plugin _ _ _ _ _ _ _) as [a' ext' evs|e evs]; [|done].
    specialize (IH a' ext').
    destruct (load_plugins _ _ _ _ _ _) as [[r ext''] evs']. simpl in *.
    by apply Forall_app.
Qed.

Lemma load_plugins_fallback todo a ext :
  Props.get "_" (load_plugins require s plugins todo a ext).1.2 = Props.get "_" ext.
Proof.
  revert a ext. induction todo as [|[pluginName entry] todo IH]; intros a ext; simpl.
  - done.
  - destruct (load_plugin _ _ _ _ _ _ _) as [a' ext' evs|e evs] eqn:E; [|done].
    specialize (IH a' ext').
    destruct (load_plugins _ _ _ _ _ _) as [[r ext''] evs']. simpl in *.
    rewrite IH. eapply load_plugin_binds; eauto.
Qed.

Lemma load_plugins_invalid todo a ext name entry :
  (name, entry) ∈ todo ->
  Invalid require s plugins name entry ->
  exists e, (load_plugins require s plugins todo a ext).1.1 = LoopReject e.
Proof.
  intros Hin Hinv. revert a ext.
  induction todo as [|[pluginName entry'] todo IH]; intros a ext.
  { by apply elem_of_nil in Hin. }
  simpl. apply elem_of_cons in Hin as [[= <- <-]|Hin].
  - destruct (load_plugin_invalid name entry a ext Hinv) as (e & evs & ->). eauto.
  - destruct (load_plugin _ _ _ _ _ _ _) as [a' ext' evs|e evs]; [|eauto].
    destruct (IH Hin a' ext') as [e He].
    destruct (load_plugins _ _ _ _ _ _) as [[r ext''] evs']. simpl in *. eauto.
Qed.

(** An entry named ["_"] is passed over wherever it stands. *)
Lemma load_plugins_reserved before entry after a ext :
  load_plugins require s plugins (before ++ ("_", entry) :: after) a ext
  = load_plugins require s plugins (before ++ after) a ext.
Proof.
  revert a ext. induction before as [|[pluginName entry'] before IH]; intros a ext.
  - simpl. by destruct (load_plugins _ _ _ _ _ _) as [[r ext'] evs].
  - simpl. destruct (load_plugin _ _ _ _ _ _ _) as [a' ext' evs|e evs]; [|done].
    by rewrite IH.
Qed.

End Load.

Lemma for_each_backend_events op ext :
  Forall (fun ev => exists b, ev = EvBackend b op) (for_each_backend op ext).2.
Proof.
  induction ext as [|[name [|b]] ext IH]; simpl; [constructor|constructor|].
  destruct (for_each_backend op ext) as [r evs]. simpl in *.
  constructor; eauto.
Qed.

Lemma load_finish_events promises st evs :
  exists opened,
    (load_finish promises st evs).2 = evs ++ opened /\ Forall is_open opened.
Proof.
  unfold load_finish. destruct promises as [|p ps].
  - destruct (slot "_" st) as [|m]; simpl.
    + exists []. by rewrite app_nil_r.
    + exists [EvBackend m OpOpen]. split; [done|]. by repeat constructor.
  - exists []. by rewrite app_nil_r.
Qed.

Lemma construct_not_open evs : Forall is_construct evs -> Forall (fun ev => ~ is_open ev) evs.
Proof.
  intros H. eapply Forall_impl; [exact H|].
  intros ev Hc Ho. destruct ev; simpl in *; done.
Qed.

(** C5 — construction comes before opening.  The events of a [load] are
    the plugin calls of the first loop followed by the [open] calls, and an
    [open] call is only made when the first loop has gone through every
    entry; in particular, when the configuration holds an invalid entry (an
    alias to an undeclared name, a module that cannot be required, a plugin
    that throws), [load] rejects and no [open] call has been made. *)
Theorem load_opens_after_construction require st s plugins :
  settings st = Some s ->
  contextStorage s = Some plugins ->
  (exists constructed opened,
     (load require st).2 = constructed ++ opened /\
     Forall is_construct constructed /\
     Forall is_open opened /\
     (opened ≠ [] ->
      exists a, (load_plugins require s plugins plugins false (externalContexts st)).1.1
                = LoopDone a)) /\
  (forall name entry,
     (name, entry) ∈ plugins ->
     Invalid require s plugins name entry ->
     exists e, (load require st).1.1 = Rejected e /\
               Forall (fun ev => ~ is_open ev) (load require st).2).
Proof.
  intros Hs Hp. load_by_executor; unfold load_executor. rewrite Hs, Hp.
  pose proof (load_plugins_events require s plugins plugins false (externalContexts st)) as Hevs.
  split.
  - destruct (load_plugins _ _ _ _ _ _) as [[[e|a] ext] evs]; simpl in Hevs.
    + exists evs, []. rewrite app_nil_r. by repeat split.
    + simpl. pose proof (for_each_backend_events OpOpen ext) as Hopen.
      destruct (for_each_backend OpOpen ext) as [[e|promises] evs']; simpl in Hopen.
      * exists evs, evs'. repeat split; [done| |eauto].
        eapply Forall_impl; [exact Hopen|]. by intros ev [b ->].
      * destruct (load_finish_events promises
                    (if a then with_externalContexts
                                 (Props.set "default"
                                    (slot (default_target plugins) (with_externalContexts ext st))
                                    ext) (with_externalContexts ext st)
                     else with_externalContexts ext st) (evs ++ evs'))
          as (opened & Hfin & Hopened).
        exists evs, (evs' ++ opened). rewrite app_assoc. repeat split; [done|done| |eauto].
        apply Forall_app. split; [|done].
        eapply Forall_impl; [exact Hopen|]. by intros ev [b ->].
  - intros name entry Hin Hinv.
    destruct (load_plugins_invalid require s plugins plugins false (externalContexts st)
                name entry Hin Hinv) as [e He].
    destruct (load_plugins _ _ _ _ _ _) as [[r ext] evs]. simpl in He, Hevs. subst r.
    exists e. split; [done|]. by apply construct_not_open.
Qed.

Lemma load_opens_after_construction_witness :
  exists e, (loaded settings_bad_alias).1.1 = Rejected e /\
            Forall (fun ev => ~ is_open ev) (loaded settings_bad_alias).2.
Proof.
  apply (proj2 (load_opens_after_construction no_modules
                  (init mem settings_bad_alias (initial [])).1
                  settings_bad_alias
                  [("store1", EntObj (Some (ModFn plugin_store1)) None);
                   ("default", EntStr "nowhere")] eq_refl eq_refl)
           "default" (EntStr "nowhere")).
  - apply list_elem_of_further, list_elem_of_here.
  - apply invalid_alias. reflexivity.
Defined.

Lemma load_fallback require st :
  Props.get "_" (externalContexts (load require st).1.2) = Props.get "_" (externalContexts st).
Proof.
  assert (forall promises st' evs,
            externalContexts (load_finish promises st' evs).1.2 = externalContexts st') as Hfin.
  { intros promises st' evs. unfold load_finish.
    destruct promises; [by destruct (slot "_" st')|done]. }
  load_by_executor; unfold load_executor. destruct (settings st) as [s|]; [|done].
  destruct (contextStorage s) as [plugins|]; [|by rewrite Hfin].
  pose proof (load_plugins_fallback require s plugins plugins false (externalContexts st)) as H.
  destruct (load_plugins _ _ _ _ _ _) as [[[e|a] ext] evs]; simpl in H; [done|].
  simpl. destruct (for_each_backend OpOpen ext) as [[e|promises] evs']; [done|].
  rewrite Hfin. destruct a; simpl; [|done].
  by rewrite get_set_ne.
Qed.

(** C4, as amended — the reserved name is skipped, not refused.  The loop
    body does nothing for an entry named ["_"]: no plugin is called, no
    error is raised, the registry is untouched; so [load] behaves on the
    other entries as if that one was not enumerated, and the registry slot
    ["_"] after any [load] is the one [init] made. *)
Theorem reserved_name_is_skipped require s plugins before entry after a ext st :
  load_plugin require s plugins "_" entry a ext = Continue a ext [] /\
  load_plugins require s plugins (before ++ ("_", entry) :: after) a ext
  = load_plugins require s plugins (before ++ after) a ext /\
  Props.get "_" (externalContexts (load require st).1.2) = Props.get "_" (externalContexts st).
Proof.
  split; [apply load_plugin_reserved|].
  split; [apply load_plugins_reserved | apply load_fallback].
Qed.

(** C4, as stated, fails: a configuration whose only entry is named ["_"]
    is not rejected.  The entry's plugin is never called and [load] opens
    the in-memory fallback. *)
Lemma reserved_entry_not_rejected :
  let '(p, st, evs) := loaded settings_reserved in
  p = All [(mem, OpOpen)] /\
  evs = [EvBackend mem OpOpen] /\
  externalContexts st = [("_", BInst mem)] /\
  forall e, p ≠ Rejected e.
Proof. vm_compute. repeat split. intros e [=]. Qed.

(** C2 — the failing input.  With [{ default: "default" }] the alias check
    passes, because ["default"] is a declared name, but no instance was
    ever bound to it: [load] succeeds once the fallback is open, and leaves
    ["default"] registered and bound to [undefined], so that resolving it
    yields no backend. *)
Theorem self_alias_binds_default_to_undefined :
  let '(p, st, evs) := loaded settings_self_alias in
  p = All [(mem, OpOpen)] /\
  fulfilled (fun _ _ => true) p = true /\
  externalContexts st = [("_", BInst mem); ("default", BUndefined)] /\
  getContextStorage (JStr "default") st = Return BUndefined /\
  scope_get "n1" "count" (JFun "cb") JUndefined st = Throw TypeError.
Proof. vm_compute. by repeat split. Qed.

(** C3 — the failing inputs.  With [{}], and with a configuration that
    only has an entry named ["_"], [load] opens the fallback and nothing
    else, no backend but the fallback is registered, and yet the flag is
    set. *)
Theorem flag_set_without_external_backend :
  (let '(p, st, evs) := loaded settings_empty in
   p = All [(mem, OpOpen)] /\ evs = [EvBackend mem OpOpen] /\
   externalContexts st = [("_", BInst mem)] /\ hasExternalContext st = true) /\
  (let '(p, st, evs) := loaded settings_reserved in
   p = All [(mem, OpOpen)] /\ evs = [EvBackend mem OpOpen] /\
   externalContexts st = [("_", BInst mem)] /\ hasExternalContext st = true).
Proof. vm_compute. by repeat split. Qed.

(** ** What holds of a [load] that does not reject *)

Lemma for_each_backend_none op ext evs :
  for_each_backend op ext = (Return [], evs) -> ext = [].
Proof.
  destruct ext as [|[name [|b]] ext]; simpl; [done|done|].
  destruct (for_each_backend op ext) as [[e|promises] evs']; intros [=].
Qed.

Lemma for_each_backend_returns op ext promises evs :
  for_each_backend op ext = (Return promises, evs) ->
  Forall (fun slot => slot.2 ≠ BUndefined) ext.
Proof.
  revert promises evs. induction ext as [|[name [|b]] ext IH]; intros promises evs; simpl.
  - constructor.
  - intros [=].
  - destruct (for_each_backend op ext) as [[e|promises'] evs'] eqn:E; intros [=].
    constructor; [done | by eapply IH].
Qed.

Lemma get_defined name v (ext : list (string * BVal)) :
  Forall (fun slot => slot.2 ≠ BUndefined) ext ->
  Props.get name ext = Some v -> exists b, v = BInst b.
Proof.
  induction 1 as [|[k v'] ext Hd _ IH]; simpl; [done|].
  destruct (String.eqb name k); [|done].
  intros [= ->]. destruct v; [done | eauto].
Qed.

Lemma set_defined name b (ext : list (string * BVal)) :
  Forall (fun slot => slot.2 ≠ BUndefined) ext ->
  Forall (fun slot => slot.2 ≠ BUndefined) (Props.set name (BInst b) ext).
Proof.
  intros H. unfold Props.set. destruct (Props.has_own name ext).
  - induction H as [|[k v'] ext Hd Hl IH]; simpl; [constructor|].
    destruct (String.eqb name k); by constructor.
  - induction H as [|[k v'] ext Hd Hl IH]; simpl; [by repeat constructor|].
    destruct (enumerated_before name k); by repeat constructor.
Qed.

(** The flag after a [load] that did not reject only tells whether
    [settings.contextStorage] is there at all. *)
Lemma load_flag require st s :
  settings st = Some s ->
  (exists ps, (load require st).1.1 = All ps) ->
  hasExternalContext (load require st).1.2 =
    match contextStorage s with
    | Some _ => true
    | None => hasExternalContext st
    end.
Proof.
  intros Hs [ps Hps]. revert Hps. load_by_executor; unfold load_executor. rewrite Hs.
  assert (forall st' evs, slot "_" st' = BUndefined ->
            (load_finish [] st' evs).1.1 = Rejected TypeError) as Hnone.
  { intros st' evs H. unfold load_finish. by rewrite H. }
  destruct (contextStorage s) as [plugins|].
  - destruct (load_plugins _ _ _ _ _ _) as [[[e|a] ext] evs]; [done|]. simpl.
    destruct (for_each_backend OpOpen ext) as [[e|[|p promises]] evs'] eqn:E; [done| |done].
    apply for_each_backend_none in E as ->.
    rewrite Hnone; [done | by destruct a].
  - unfold load_finish. by destruct (slot "_" st).
Qed.

Section LoadDone.
Variable require : string -> option Plugin.
Variable s : Settings.
Variable plugins : list (string * Entry).

Lemma load_plugin_keeps pluginName entry a ext a' ext' evs k :
  load_plugin require s plugins pluginName entry a ext = Continue a' ext' evs ->
  Props.has_own k ext = true -> Props.has_own k ext' = true.
Proof.
  intros H Hk. destruct (decide (k = pluginName)) as [->|Hne].
  - revert H. load_plugin_cases require pluginName entry; intros [= <- <- <-]; try done.
    all: apply has_own_get; rewrite get_set_eq; eauto.
  - apply has_own_get. rewrite (load_plugin_binds _ _ _ _ _ _ _ _ _ _ k H) by auto.
    by apply has_own_get.
Qed.

(** A loop that goes through has called the plugin of every entry that is
    neither reserved nor the alias, and has seen the alias if there is
    one. *)
Lemma load_plugins_done todo a ext a' ext' evs :
  load_plugins require s plugins todo a ext = (LoopDone a', ext', evs) ->
  (forall k, Props.has_own k ext = true -> Props.has_own k ext' = true) /\
  (forall name entry, (name, entry) ∈ todo -> name ≠ "_" -> name ≠ "default" ->
     Props.has_own name ext' = true) /\
  (forall target, ("default", EntStr target) ∈ todo ->
     a' = true /\ Props.has_own target plugins = true) /\
  (a = true -> a' = true).
Proof.
  revert a ext evs. induction todo as [|[pluginName entry] todo IH]; intros a ext evs; simpl.
  { intros [= <- <-].
    split; [done|]. split; [by intros ? ? []%elem_of_nil|].
    split; [by intros ? []%elem_of_nil | done]. }
  destruct (load_plugin _ _ _ _ _ _ _) as [a1 ext1 evs1|e evs1] eqn:E; [|done].
  destruct (load_plugins _ _ _ _ _ _) as [[r ext2] evs2] eqn:E2.
  intros [= -> -> <-]. destruct (IH _ _ _ E2) as (Hkeep & Hbound & Halias & Hmono).
  assert (a = true -> a1 = true) as Hmono1.
  { revert E. load_plugin_cases require pluginName entry; by intros [= <- <- <-]. }
  split; [|split; [|split]].
  - intros k Hk. eapply Hkeep, load_plugin_keeps; eauto.
  - intros name entry' Hin Hres Hdef. apply elem_of_cons in Hin as [[= -> ->]|Hin]; [|eauto].
    apply Hkeep. revert E. unfold load_plugin.
    destruct (String.eqb pluginName "_") eqn:Er; [by apply String.eqb_eq in Er|].
    destruct (String.eqb pluginName "default") eqn:Ed; [by apply String.eqb_eq in Ed|].
    destruct entry as [target|[[module|plugin]|] config|]; try done.
    + destruct (require module) as [plugin|]; [|done].
      destruct (plugin _); [done|]. intros [= <- <- <-].
      apply has_own_get. rewrite get_set_eq. eauto.
    + destruct (plugin _); [done|]. intros [= <- <- <-].
      apply has_own_get. rewrite get_set_eq. eauto.
  - intros target Hin. apply elem_of_cons in Hin as [[= <- <-]|Hin]; [|by eapply Halias].
    revert E. unfold load_plugin. simpl.
    destruct (Props.has_own target plugins); [|done].
    intros [= <- <- <-]. split; [by apply Hmono | done].
  - auto.
Qed.

End LoadDone.

Lemma get_elem_of {V} k (v : V) (o : list (string * V)) :
  Props.get k o = Some v -> (k, v) ∈ o.
Proof.
  induction o as [|[k' v'] o IH]; simpl; [done|].
  destruct (String.eqb k k') eqn:E.
  - apply String.eqb_eq in E. intros [= ->]. subst. apply list_elem_of_here.
  - intros H. apply list_elem_of_further. by apply IH.
Qed.

(** Apart from the alias of ["default"] to itself, a [load] that does not
    reject leaves an instance in every slot of the registry, and
    ["default"], when it is an alias, bound to the instance of its
    target. *)
Lemma load_alias_bound require st s plugins target :
  settings st = Some s ->
  contextStorage s = Some plugins ->
  Props.has_own "_" (externalContexts st) = true ->
  Props.get "default" plugins = Some (EntStr target) ->
  target ≠ "default" ->
  (exists ps, (load require st).1.1 = All ps) ->
  Forall (fun slot => slot.2 ≠ BUndefined) (externalContexts (load require st).1.2) /\
  exists b, Props.get "default" (externalContexts (load require st).1.2) = Some (BInst b) /\
            Props.get target (externalContexts (load require st).1.2) = Some (BInst b).
Proof.
  intros Hs Hp Hfallback Hdefault Hne [ps Hps]. revert Hps. load_by_executor; unfold load_executor. rewrite Hs, Hp.
  destruct (load_plugins _ _ _ _ _ _) as [[[e|a] ext] evs] eqn:E; [done|]. simpl.
  destruct (load_plugins_done _ _ _ _ _ _ _ _ _ E) as (Hkeep & Hbound & Halias & _).
  destruct (Halias target (get_elem_of _ _ _ Hdefault)) as [-> Hdeclared].
  destruct (for_each_backend OpOpen ext) as [[e|promises] evs'] eqn:Eo; [done|].
  apply for_each_backend_returns in Eo.
  assert (exists b, Props.get target ext = Some (BInst b)) as [b Hb].
  { assert (Props.has_own target ext = true) as Hown.
    { destruct (decide (target = "_")) as [->|Hres]; [by apply Hkeep|].
      apply has_own_get in Hdeclared as [entry Hentry].
      apply (Hbound target entry); [by apply get_elem_of | done | done]. }
    apply has_own_get in Hown as [v Hv].
    destruct (get_defined _ _ _ Eo Hv) as [b ->]. eauto. }
  assert (default_target plugins = target) as Ht by (unfold default_target; by rewrite Hdefault).
  intros _. unfold load_finish.
  assert (slot target (with_externalContexts ext st) = BInst b) as Hslot
    by (unfold slot; simpl; by rewrite Hb).
  rewrite Ht, Hslot.
  assert (Forall (fun slot => slot.2 ≠ BUndefined) (Props.set "default" (BInst b) ext)
          /\ exists b', Props.get "default" (Props.set "default" (BInst b) ext) = Some (BInst b')
                        /\ Props.get target (Props.set "default" (BInst b) ext) = Some (BInst b'))
    as Hgoal.
  { split; [by apply set_defined|]. exists b.
    split; [apply get_set_eq | by rewrite get_set_ne]. }
  destruct promises; [|exact Hgoal].
  by destruct (slot "_" _).
Qed.

(** The scenario of two declarations, a store and ["default"] as its
    alias: both the fallback and the store are opened, and a name that was
    never registered resolves to the store. *)
Example alias_resolves_unknown_names :
  let '(p, st, evs) := loaded settings_alias in
  p = All [(mem, OpOpen); (store1, OpOpen)] /\
  slot "default" st = BInst store1 /\
  getContextStorage (JStr "unknown") st = Return (BInst store1) /\
  hasExternalContext st = true.
Proof. vm_compute. by repeat split. Qed.

(** * Further properties of the module *)

(** ** What [load] and [init] touch *)

Lemma load_finish_state promises st evs :
  (load_finish promises st evs).1.2 = st \/
  (exists ps, (load_finish promises st evs).1.1 = All ps) /\
  (load_finish promises st evs).1.2
  = {| settings := settings st; contexts := contexts st;
       globalContext := globalContext st; externalContexts := externalContexts st;
       hasExternalContext := true; heap := heap st |}.
Proof.
  unfold load_finish. destruct promises as [|p ps].
  - left. by destruct (slot "_" st).
  - right. simpl. eauto.
Qed.

Lemma load_executor_changes require st :
  let '(p, st', evs) := load_executor require st in
  settings st' = settings st /\
  contexts st' = contexts st /\
  globalContext st' = globalContext st /\
  heap st' = heap st /\
  (forall e, p = Rejected e -> hasExternalContext st' = hasExternalContext st) /\
  (hasExternalContext st = true -> hasExternalContext st' = true).
Proof.
  assert (forall promises st0 evs,
            let '(p, st', _) := load_finish promises st0 evs in
            settings st' = settings st0 /\ contexts st' = contexts st0 /\
            globalContext st' = globalContext st0 /\ heap st' = heap st0 /\
            (forall e, p = Rejected e -> hasExternalContext st' = hasExternalContext st0) /\
            (hasExternalContext st0 = true -> hasExternalContext st' = true)) as Hfin.
  { intros promises st0 evs. unfold load_finish. destruct promises as [|p ps].
    - destruct (slot "_" st0); by repeat split.
    - by repeat split. }
  unfold load_executor.
  destruct st as [[s|] cache g ext0 flag h]; cbn [settings]; [|by repeat split].
  set (st := {| settings := Some s; contexts := cache; globalContext := g;
                externalContexts := ext0; hasExternalContext := flag; heap := h |}).
  destruct (contextStorage s) as [plugins|]; [|apply (Hfin [] st [])].
  destruct (load_plugins _ _ _ _ _ _) as [[[e|a] ext] evs]; [by repeat split|].
  cbn [externalContexts with_externalContexts].
  destruct (for_each_backend OpOpen ext) as [[e|promises] evs']; [by repeat split|].
  specialize (Hfin promises
                (if a then with_externalContexts
                             (Props.set "default"
                                (slot (default_target plugins) (with_externalContexts ext st))
                                ext) (with_externalContexts ext st)
                 else with_externalContexts ext st) (evs ++ evs')).
  destruct (load_finish _ _ _) as [[p st'] evs'']. by destruct a.
Qed.

Lemma load_changes require st :
  let '(p, st', evs) := load require st in
  settings st' = settings_after require st /\
  contexts st' = contexts st /\
  globalContext st' = globalContext st /\
  heap st' = heap st /\
  (forall e, p = Rejected e -> hasExternalContext st' = hasExternalContext st) /\
  (hasExternalContext st = true -> hasExternalContext st' = true).
Proof.
  pose proof (load_executor_changes require st) as H. unfold load.
  destruct (load_executor require st) as [[p st'] evs].
  destruct H as (_ & ? & ? & ? & ? & ?). by repeat split.
Qed.

Section ConfigurationObjects.
Variable require : string -> option Plugin.
Variable s : Settings.
Variable plugins : list (string * Entry).




End ConfigurationObjects.





Lemma init_flag memory s st :
  hasExternalContext (init memory s st).1 = hasExternalContext st.
Proof. unfold init. by destruct (functionGlobalContext s). Qed.

Lemma perform_flag require c st :
  hasExternalContext st = true -> hasExternalContext (perform require c st) = true.
Proof.
  intros H. destruct c as [l f|id f|allNodes| |]; simpl.
  - destruct (getContext_cases l f st) as [(c' & _ & ->)|[(_ & E & ->)|(f' & -> & Hf & E)]].
    + done.
    + by rewrite getContext_no_flow_miss.
    + pose proof (getContext_flow_miss l f' st Hf E) as Hm. simpl in Hm.
      assert (forall s0, hasExternalContext (getContext f' None s0).2 = hasExternalContext s0) as Hg.
      { intros s0. destruct (contexts s0 !! f') as [c|] eqn:E'.
        - by rewrite (getContext_hit f' None s0 c E').
        - by rewrite getContext_no_flow_miss. }
      specialize (Hg (with_heap (heap st ++ [methods (l +:+ ":" +:+ f')]) st)).
      destruct (getContext f' None _) as [fl st2]. rewrite Hm. simpl in *. by rewrite Hg.
  - unfold deleteContext. by rewrite H.
  - unfold clean. by destruct (for_each_backend _ _) as [[e|ps] evs].
  - pose proof (load_changes require st) as Hl.
    destruct (load require st) as [[p st'] evs]. simpl. by apply Hl.
  - unfold close. by destruct (for_each_backend _ _) as [[e|ps] evs].
Qed.

(** X3 — Nothing ever clears the flag: once a [load] has set it, it stays set
    through every later call, a new [init] and a new [load] included, so
    that [deleteContext] remains without effect from then on. *)
Theorem flag_never_cleared require memory s calls st :
  hasExternalContext st = true ->
  hasExternalContext (perform_all require calls st) = true /\
  hasExternalContext (init memory s (perform_all require calls st)).1 = true /\
  forall id flowId,
    deleteContext id flowId (init memory s (perform_all require calls st)).1
    = (Return Resolved, (init memory s (perform_all require calls st)).1, []).
Proof.
  intros H.
  assert (hasExternalContext (perform_all require calls st) = true) as Hcalls.
  { revert st H. induction calls as [|c calls IH]; intros st H; [done|].
    simpl. by apply IH, perform_flag. }
  assert (hasExternalContext (init memory s (perform_all require calls st)).1 = true) as Hinit.
  { by rewrite init_flag. }
  repeat split; [done|done|].
  intros id flowId. unfold deleteContext. by rewrite Hinit.
Qed.

Lemma flag_never_cleared_witness :
  deleteContext "n1" None
    (init mem settings_plain
       (perform_all no_modules [CallGet "n1" None; CallClean []]
          (loaded settings_alias).1.2)).1
  = (Return Resolved,
     (init mem settings_plain
        (perform_all no_modules [CallGet "n1" None; CallClean []]
           (loaded settings_alias).1.2)).1, []).
Proof.
  apply (flag_never_cleared no_modules mem settings_plain
           [CallGet "n1" None; CallClean []] (loaded settings_alias).1.2).
  by vm_compute.
Defined.

(** ** The plugin calls of [load] *)

Section PluginCalls.
Variable require : string -> option Plugin.
Variable s : Settings.
Variable plugins : list (string * Entry).

(** What the loop body records: nothing, or the call of the entry's
    plugin on the entry's configuration after [copySettings]. *)
Lemma load_plugin_call pluginName entry a ext ev :
  ev ∈ match load_plugin require s plugins pluginName entry a ext with
       | Continue _ _ evs | Leave _ evs => evs
       end ->
  pluginName ≠ "_" /\
  exists module config,
    entry = EntObj (Some module) config /\
    ev = EvConstruct pluginName (copySettings (default empty_config config) s).
Proof.
  load_plugin_cases require pluginName entry; try by intros ?%elem_of_nil.
  all: intros ->%list_elem_of_singleton.
  all: split; [by intros ->|eauto].
Qed.

Lemma load_plugins_call todo a ext ev :
  ev ∈ (load_plugins require s plugins todo a ext).2 ->
  exists name module config,
    (name, EntObj (Some module) config) ∈ todo /\ name ≠ "_" /\
    ev = EvConstruct name (copySettings (default empty_config config) s).
Proof.
  revert a ext. induction todo as [|[pluginName entry] todo IH]; intros a ext; simpl.
  { by intros ?%elem_of_nil. }
  pose proof (load_plugin_call pluginName entry a ext ev) as Hstep.
  destruct (load_plugin _ _ _ _ _ _ _) as [a' ext' evs|e evs].
  - specialize (IH a' ext').
    destruct (load_plugins _ _ _ _ _ _) as [[r ext''] evs']. simpl in *.
    intros [Hin|Hin]%elem_of_app.
    + destruct (Hstep Hin) as (Hres & module & config & -> & ->).
      exists pluginName, module, config. split; [apply list_elem_of_here | done].
    + destruct (IH Hin) as (name & module & config & Hin' & Hres & ->).
      exists name, module, config. split; [by apply list_elem_of_further | done].
  - simpl. intros Hin. destruct (Hstep Hin) as (Hres & module & config & -> & ->).
    exists pluginName, module, config. split; [apply list_elem_of_here | done].
Qed.

(** The plugin calls follow the configuration: the loop calls the plugins
    of the entries that declare a backend, in the order of enumeration,
    and has called all of them when it gets to the end. *)
Lemma load_plugins_order todo a ext :
  exists rest,
    map fst (List.filter declares_backend todo)
    = constructed (load_plugins require s plugins todo a ext).2 ++ rest /\
    (forall a', (load_plugins require s plugins todo a ext).1.1 = LoopDone a' -> rest = []).
Proof.
  revert a ext. induction todo as [|[pluginName entry] todo IH]; intros a ext.
  { exists []. by split. }
  cbn [load_plugins List.filter]. unfold declares_backend at 1. cbn [fst snd].
  assert (forall a1 ext1 evs1 (keep : bool),
            constructed evs1 = (if keep then [pluginName] else []) ->
            exists rest,
              map fst (if keep then (pluginName, entry) :: List.filter declares_backend todo
                       else List.filter declares_backend todo)
              = constructed
                  (let '(r, ext2, evs') := load_plugins require s plugins todo a1 ext1 in
                   (r, ext2, evs1 ++ evs')).2 ++ rest /\
              (forall a',
                 (let '(r, ext2, evs') := load_plugins require s plugins todo a1 ext1 in
                  (r, ext2, evs1 ++ evs')).1.1 = LoopDone a' -> rest = [])) as Hcontinue.
  { intros a1 ext1 evs1 keep Hevs. destruct (IH a1 ext1) as (rest & Hrest & Hdone).
    destruct (load_plugins _ _ _ _ _ _) as [[r ext2] evs']. simpl in *.
    exists rest. split; [|done].
    unfold constructed in *. rewrite omap_app, Hevs.
    destruct keep; simpl; by rewrite Hrest. }
  load_plugin_cases require pluginName entry; cbn [negb andb].
  all: try (by apply (Hcontinue _ _ [] false)).
  all: try (by apply (Hcontinue _ _ [_] true)).
  all: eexists; (split; [reflexivity | by intros a' [=]]).
Qed.

End PluginCalls.

Lemma opened_not_constructed evs ev :
  Forall is_open evs -> ev ∈ evs -> is_construct ev -> False.
Proof.
  intros Hall Hin Hc. rewrite Forall_forall in Hall. specialize (Hall ev Hin).
  by destruct ev.
Qed.

Lemma constructed_opened evs : Forall is_open evs -> constructed evs = [].
Proof.
  induction 1 as [|ev evs Hev _ IH]; [done|].
  unfold constructed in *. simpl. by destruct ev.
Qed.

(** The events of a [load] of a configuration: those of the first loop,
    then [open] calls; and the promise is not rejected only if the loop
    got to the end. *)
Lemma load_events_configured require st s plugins :
  settings st = Some s ->
  contextStorage s = Some plugins ->
  exists opened,
    Forall is_open opened /\
    (load require st).2
    = (load_plugins require s plugins plugins false (externalContexts st)).2 ++ opened /\
    ((exists ps, (load require st).1.1 = All ps) ->
     exists a, (load_plugins require s plugins plugins false (externalContexts st)).1.1
               = LoopDone a).
Proof.
  intros Hs Hp. load_by_executor; unfold load_executor. rewrite Hs, Hp.
  destruct (load_plugins _ _ _ _ _ _) as [[[e|a] ext] evs].
  - exists []. rewrite app_nil_r. split; [done|]. split; [done|]. by intros [ps [=]].
  - simpl. pose proof (for_each_backend_events OpOpen ext) as Hopen.
    assert (Forall is_open (for_each_backend OpOpen ext).2) as Hopen'.
    { eapply Forall_impl; [exact Hopen|]. by intros ev [b ->]. }
    destruct (for_each_backend OpOpen ext) as [[e|promises] evs']; simpl in Hopen'.
    + exists evs'. split; [done|]. split; [done|]. eauto.
    + destruct (load_finish_events promises
                  (if a then with_externalContexts
                               (Props.set "default"
                                  (slot (default_target plugins) (with_externalContexts ext st))
                                  ext) (with_externalContexts ext st)
                   else with_externalContexts ext st) (evs ++ evs'))
        as (opened & Hfin & Hopened).
      exists (evs' ++ opened). split; [by apply Forall_app|].
      rewrite Hfin, app_assoc. split; [done|]. eauto.
Qed.

(** Without settings or without [contextStorage], [load] calls no plugin. *)
Lemma load_events_bare require st :
  (forall s, settings st = Some s -> contextStorage s = None) ->
  Forall is_open (load require st).2.
Proof.
  intros Hbare. load_by_executor; unfold load_executor. destruct (settings st) as [s|]; [|constructor].
  rewrite (Hbare s eq_refl).
  destruct (load_finish_events [] st []) as (opened & -> & Hopened). done.
Qed.

(** X4 — Every plugin that [load] calls belongs to a declared entry other than
    ["_"], and is handed that entry's configuration with its [settings]
    replaced by the one approved setting: [userDir] of the runtime
    settings.  Whatever [settings] the entry's configuration held is
    dropped. *)
Theorem plugins_get_copied_settings require st name cfg :
  EvConstruct name cfg ∈ (load require st).2 ->
  exists s plugins module config,
    settings st = Some s /\
    contextStorage s = Some plugins /\
    (name, EntObj (Some module) config) ∈ plugins /\
    name ≠ "_" /\
    cfg = copySettings (default empty_config config) s /\
    options cfg = options (default empty_config config) /\
    config_settings cfg = [("userDir", userDir s)].
Proof.
  intros Hin.
  destruct (settings st) as [s|] eqn:Hs.
  2:{ pose proof (load_events_bare require st) as Hbare. rewrite Hs in Hbare.
      by destruct (opened_not_constructed _ _ (Hbare ltac:(done)) Hin). }
  destruct (contextStorage s) as [plugins|] eqn:Hp.
  2:{ pose proof (load_events_bare require st) as Hbare. rewrite Hs in Hbare.
      assert (forall s0, Some s = Some s0 -> contextStorage s0 = None) as H0
        by (by intros s0 [= <-]).
      by destruct (opened_not_constructed _ _ (Hbare H0) Hin). }
  destruct (load_events_configured require st s plugins Hs Hp)
    as (opened & Hopened & Hevs & _).
  rewrite Hevs in Hin.
  apply elem_of_app in Hin as [Hin|Hin];
    [|by destruct (opened_not_constructed _ _ Hopened Hin)].
  destruct (load_plugins_call _ _ _ _ _ _ _ Hin)
    as (name' & module & config & Hdecl & Hres & [= -> ->]).
  exists s, plugins, module, config. by repeat split.
Qed.

Lemma plugins_get_copied_settings_witness :
  exists s plugins module config,
    settings (init mem settings_alias (initial [])).1 = Some s /\
    contextStorage s = Some plugins /\
    ("store1", EntObj (Some module) config) ∈ plugins /\
    "store1" ≠ "_" /\
    {| options := []; config_settings := [("userDir", None)] |}
    = copySettings (default empty_config config) s /\
    options {| options := []; config_settings := [("userDir", None)] |}
    = options (default empty_config config) /\
    config_settings {| options := []; config_settings := [("userDir", None)] |}
    = [("userDir", userDir s)].
Proof.
  apply (plugins_get_copied_settings no_modules (init mem settings_alias (initial [])).1
           "store1" {| options := []; config_settings := [("userDir", None)] |}).
  vm_compute. apply list_elem_of_here.
Defined.

(** X5 — The plugins are called in the order in which the configuration
    declares them, one call per entry that is neither ["_"] nor the
    ["default"] alias: the calls made are always a first part of that
    sequence, and the whole of it when [load] does not reject. *)
Theorem load_calls_plugins_in_order require st s plugins :
  settings st = Some s ->
  contextStorage s = Some plugins ->
  exists rest,
    map fst (List.filter declares_backend plugins) = constructed (load require st).2 ++ rest /\
    ((exists ps, (load require st).1.1 = All ps) -> rest = []).
Proof.
  intros Hs Hp.
  destruct (load_events_configured require st s plugins Hs Hp)
    as (opened & Hopened & Hevs & Hdone).
  destruct (load_plugins_order require s plugins plugins false (externalContexts st))
    as (rest & Hrest & Hall).
  exists rest. split.
  - rewrite Hevs. unfold constructed in *.
    rewrite omap_app. fold (constructed opened).
    by rewrite (constructed_opened _ Hopened), app_nil_r.
  - intros Hps. destruct (Hdone Hps) as [a Ha]. by eapply Hall.
Qed.

Lemma load_calls_plugins_in_order_witness :
  exists rest,
    map fst (List.filter declares_backend
               [("store1", EntObj (Some (ModFn plugin_store1)) None);
                ("default", EntStr "store1")])
    = constructed (loaded settings_alias).2 ++ rest /\
    ((exists ps, (loaded settings_alias).1.1 = All ps) -> rest = []).
Proof.
  apply (load_calls_plugins_in_order no_modules (init mem settings_alias (initial [])).1
           settings_alias); reflexivity.
Defined.

(** ** Resolving a backend after [load] *)

(** X6 — With ["default"] declared as the alias of another declared name, a
    [load] that does not reject leaves ["default"] bound to the instance of
    that name; from then on every name that is not registered resolves to
    that instance, and so does a scope method called with a completion in
    the place of the backend name. *)
Theorem load_alias_serves_unknown_names require st s plugins target :
  settings st = Some s ->
  contextStorage s = Some plugins ->
  Props.has_own "_" (externalContexts st) = true ->
  Props.get "default" plugins = Some (EntStr target) ->
  target ≠ "default" ->
  (exists ps, (load require st).1.1 = All ps) ->
  let st' := (load require st).1.2 in
  exists b,
    slot target st' = BInst b /\
    slot "default" st' = BInst b /\
    (forall name, Props.has_own name (externalContexts st') = false ->
                  getContextStorage (JStr name) st' = Return (BInst b)) /\
    (forall scope key cb,
       scope_get scope key (JFun cb) JUndefined st' = Return (b, CGet scope key (JFun cb))).
Proof.
  intros Hs Hp Hfb Hd Hne Hps.
  destruct (load_alias_bound require st s plugins target Hs Hp Hfb Hd Hne Hps)
    as (_ & b & Hdefault & Htarget).
  simpl. exists b. unfold slot. rewrite Hdefault, Htarget.
  split; [done|]. split; [done|]. split.
  - intros name Hname. unfold getContextStorage, slot. simpl. rewrite Hname.
    assert (Props.has_own "default" (externalContexts (load require st).1.2) = true) as ->.
    { apply has_own_get. by rewrite Hdefault. }
    by rewrite Hdefault.
  - intros scope key cb. unfold scope_get. simpl.
    by rewrite (getContextStorage_default_bound _ _ Hdefault).
Qed.

Lemma load_alias_serves_unknown_names_witness :
  exists b,
    slot "store1" (loaded settings_alias).1.2 = BInst b /\
    slot "default" (loaded settings_alias).1.2 = BInst b /\
    (forall name, Props.has_own name (externalContexts (loaded settings_alias).1.2) = false ->
                  getContextStorage (JStr name) (loaded settings_alias).1.2
                  = Return (BInst b)) /\
    (forall scope key cb,
       scope_get scope key (JFun cb) JUndefined (loaded settings_alias).1.2
       = Return (b, CGet scope key (JFun cb))).
Proof.
  apply (load_alias_serves_unknown_names no_modules
           (init mem settings_alias (initial [])).1 settings_alias
           [("store1", EntObj (Some (ModFn plugin_store1)) None);
            ("default", EntStr "store1")] "store1");
    try reflexivity.
  - done.
  - exists [(mem, OpOpen); (store1, OpOpen)]. reflexivity.
Defined.

(** ** The arguments of the scope methods *)

(** X7 — When a backend name or a completion is given and neither is a
    function, [get] and [keys] throw "Callback must be a function", and
    they do so before the backend name is looked at, so also for a name
    that is not registered.  [set] only throws when a completion is given:
    with a backend name and no completion it forwards the write. *)
Theorem callback_checked_before_storage scope key value storage callback st :
  truthy storage || truthy callback = true ->
  is_function storage = false ->
  is_function callback = false ->
  scope_get scope key storage callback st = Throw ErrCallback /\
  scope_keys scope storage callback st = Throw ErrCallback /\
  scope_set scope key value storage callback st
  = if truthy callback then Throw ErrCallback
    else dispatch (getContextStorage storage st) (CSet scope key value callback).
Proof.
  intros Hgiven Hs Hc. unfold scope_get, scope_keys, scope_set.
  rewrite Hs, Hc.
  destruct (truthy storage), (truthy callback); try discriminate Hgiven; done.
Qed.

Lemma callback_checked_before_storage_witness :
  scope_get "n1" "count" (JStr "nowhere") JUndefined started = Throw ErrCallback /\
  scope_keys "n1" (JStr "nowhere") JUndefined started = Throw ErrCallback /\
  scope_set "n1" "count" "1" (JStr "nowhere") JUndefined started
  = dispatch (getContextStorage (JStr "nowhere") started) (CSet "n1" "count" "1" JUndefined).
Proof.
  apply (callback_checked_before_storage "n1" "count" "1" (JStr "nowhere") JUndefined started);
    reflexivity.
Defined.

(** ** Calling every backend: [clean] and [close] *)

Lemma for_each_backend_throws op ext :
  Exists (fun slot => slot.2 = BUndefined) ext ->
  (for_each_backend op ext).1 = Throw TypeError.
Proof.
  induction ext as [|[name [|b]] ext IH]; intros Hex; simpl.
  - by apply Exists_nil in Hex.
  - done.
  - apply Exists_cons in Hex as [Hex|Hex]; [done|].
    specialize (IH Hex). by destruct (for_each_backend op ext) as [[e|ps] evs]; simplify_eq/=.
Qed.

(** X8 — [clean] and [close] call the backends first.  When a slot of the
    registry does not hold a backend, that call throws a [TypeError], and
    [clean] has then not touched the scope cache. *)
Theorem clean_and_close_throw_on_undefined allNodes st :
  Exists (fun slot => slot.2 = BUndefined) (externalContexts st) ->
  (clean allNodes st).1 = (Throw TypeError, st) /\
  (close st).1 = (Throw TypeError, st).
Proof.
  intros Hex. unfold clean, close.
  pose proof (for_each_backend_throws (OpClean allNodes) _ Hex) as Hclean.
  pose proof (for_each_backend_throws OpClose _ Hex) as Hclose.
  destruct (for_each_backend (OpClean allNodes) _) as [r1 evs1].
  destruct (for_each_backend OpClose _) as [r2 evs2].
  simpl in *. by subst.
Qed.

Lemma clean_and_close_throw_on_undefined_witness :
  (clean ["n1"] (getContext "n1" None (loaded settings_self_alias).1.2).2).1
  = (Throw TypeError, (getContext "n1" None (loaded settings_self_alias).1.2).2) /\
  (close (getContext "n1" None (loaded settings_self_alias).1.2).2).1
  = (Throw TypeError, (getContext "n1" None (loaded settings_self_alias).1.2).2).
Proof.
  apply clean_and_close_throw_on_undefined.
  vm_compute. apply Exists_cons_tl, Exists_cons_hd. reflexivity.
Defined.

Lemma instances_twice k1 k2 b (ext : list (string * BVal)) :
  Props.get k1 ext = Some (BInst b) ->
  Props.get k2 ext = Some (BInst b) ->
  k1 ≠ k2 ->
  exists i j, i < j /\ instances ext !! i = Some b /\ instances ext !! j = Some b.
Proof.
  induction ext as [|[k v] ext IH]; simpl; [done|].
  intros H1 H2 Hne.
  destruct (String.eqb k1 k) eqn:E1, (String.eqb k2 k) eqn:E2.
  - apply String.eqb_eq in E1, E2. congruence.
  - injection H1 as ->. apply instances_get, list_elem_of_lookup in H2 as [j Hj].
    exists 0, (S j). unfold instances. simpl. split; [lia|]. by split.
  - injection H2 as ->. apply instances_get, list_elem_of_lookup in H1 as [j Hj].
    exists 0, (S j). unfold instances. simpl. split; [lia|]. by split.
  - destruct (IH H1 H2 Hne) as (i & j & Hij & Hi & Hj).
    unfold instances in *. simpl. destruct v as [|b']; simpl.
    + exists i, j. by repeat split.
    + exists (S i), (S j). split; [lia|]. by split.
Qed.

(** X9 — [close] leaves the state alone and calls [close] once for each slot of
    the registry, in the order of enumeration, returning the [Promise.all]
    of those calls.  An instance bound under two names, as the target of
    the ["default"] alias is, is therefore closed twice by one [close], and
    cleaned twice by one [clean]. *)
Theorem close_calls_every_slot allNodes st :
  Forall (fun slot => slot.2 ≠ BUndefined) (externalContexts st) ->
  close st
  = (Return (All (map (fun b => (b, OpClose)) (instances (externalContexts st)))),
     st,
     map (fun b => EvBackend b OpClose) (instances (externalContexts st))) /\
  forall k1 k2 b,
    Props.get k1 (externalContexts st) = Some (BInst b) ->
    Props.get k2 (externalContexts st) = Some (BInst b) ->
    k1 ≠ k2 ->
    exists i j,
      i < j /\
      (close st).2 !! i = Some (EvBackend b OpClose) /\
      (close st).2 !! j = Some (EvBackend b OpClose) /\
      (clean allNodes st).2 !! i = Some (EvBackend b (OpClean allNodes)) /\
      (clean allNodes st).2 !! j = Some (EvBackend b (OpClean allNodes)).
Proof.
  intros Hdef. unfold close, clean. rewrite !(for_each_backend_defined _ _ Hdef).
  split; [done|]. intros k1 k2 b H1 H2 Hne.
  destruct (instances_twice k1 k2 b _ H1 H2 Hne) as (i & j & Hij & Hi & Hj).
  exists i, j. simpl. rewrite !list_lookup_fmap, Hi, Hj. by repeat split.
Qed.

Lemma close_calls_every_slot_witness :
  (close (loaded settings_alias).1.2).2
  = [EvBackend mem OpClose; EvBackend store1 OpClose; EvBackend store1 OpClose] /\
  exists i j,
    i < j /\
    (close (loaded settings_alias).1.2).2 !! i = Some (EvBackend store1 OpClose) /\
    (close (loaded settings_alias).1.2).2 !! j = Some (EvBackend store1 OpClose) /\
    (clean [] (loaded settings_alias).1.2).2 !! i = Some (EvBackend store1 (OpClean [])) /\
    (clean [] (loaded settings_alias).1.2).2 !! j = Some (EvBackend store1 (OpClean [])).
Proof.
  assert (Forall (fun slot : string * BVal => slot.2 ≠ BUndefined)
            (externalContexts (loaded settings_alias).1.2)) as Hdef.
  { vm_compute. by repeat constructor. }
  destruct (close_calls_every_slot [] _ Hdef) as [Hclose Htwice].
  split; [by rewrite Hclose|].
  apply (Htwice "store1" "default" store1); [reflexivity | reflexivity | done].
Defined.

(** ** Sweeps, one after the other *)








(** ** What a [getContext] adds *)


(** X13 — The identifier is only the two parts joined by a colon, so a local
    identifier that already has that form names the same entry: once
    [getContext("a:b")] has created its scope, [getContext("a", "b")]
    returns that very object, which has no [flow], and the scope of the
    flow is not created. *)
Theorem getContext_joined_identifier a b st :
  b ≠ "" ->
  contexts st !! (a +:+ ":" +:+ b) = None ->
  let '(c, st1) := getContext (a +:+ ":" +:+ b) None st in
  getContext a (Some b) st1 = (c, st1) /\
  property c "flow" st1 = None /\
  contexts st1 !! b = contexts st !! b.
Proof.
  intros Hb Hmiss. rewrite getContext_no_flow_miss by done.
  split; [|split].
  - apply getContext_hit. rewrite context_id_flow by done. simpl.
    by rewrite lookup_insert_eq.
  - unfold property. simpl. rewrite lookup_app_r, Nat.sub_diag by lia. simpl.
    unfold methods. destruct (globalContext st); simpl.
    + by rewrite !lookup_insert_ne, lookup_empty by done.
    + by rewrite !lookup_insert_ne, lookup_empty by done.
  - simpl. rewrite lookup_insert_ne; [done|].
    intros Heq. by eapply flow_id_not_node_id.
Qed.

Lemma getContext_joined_identifier_witness :
  "f1" ≠ "" /\
  (let '(c, st1) := getContext ("n1" +:+ ":" +:+ "f1") None started in
   getContext "n1" (Some "f1") st1 = (c, st1) /\
   property c "flow" st1 = None /\
   contexts st1 !! "f1" = contexts started !! "f1").
Proof.
  split; [done|].
  apply (getContext_joined_identifier "n1" "f1" started); [done | by vm_compute].
Defined.

(** ** Deleting, then asking again *)






(** ** Scope objects and their identifiers, call after call *)

Lemma scoped_frame st st' :
  contexts st' = contexts st -> heap st' = heap st -> scoped st -> scoped st'.
Proof. unfold scoped, property. intros -> -> H. exact H. Qed.

Lemma scoped_shrink st (c : gmap string loc) :
  (forall id l, c !! id = Some l -> contexts st !! id = Some l) ->
  scoped st -> scoped (with_contexts c st).
Proof. unfold scoped, property. simpl. intros Hsub H id l Hl. by apply H, Hsub. Qed.

Lemma scoped_grow st more :
  scoped st -> scoped (with_heap (heap st ++ more) st).
Proof.
  unfold scoped, property. simpl. intros H id c Hc.
  destruct (H id c Hc) as (Hlt & Hget & Hset & Hkeys).
  rewrite length_app, !lookup_app_l by done. split; [lia | done].
Qed.

Lemma methods_lookup id g v :
  link_global g (methods id) !! "get" = Some (VClosure MGet id) /\
  link_global g (methods id) !! "set" = Some (VClosure MSet id) /\
  link_global g (methods id) !! "keys" = Some (VClosure MKeys id) /\
  link_global g (<["flow" := v]> (methods id)) !! "get" = Some (VClosure MGet id) /\
  link_global g (<["flow" := v]> (methods id)) !! "set" = Some (VClosure MSet id) /\
  link_global g (<["flow" := v]> (methods id)) !! "keys" = Some (VClosure MKeys id).
Proof. unfold methods. destruct g; simpl; repeat split; lookup_inserted. Qed.

Lemma getContext_no_flow_scoped localId st :
  scoped st -> scoped (getContext localId None st).2.
Proof.
  intros H. destruct (contexts st !! localId) as [c|] eqn:E.
  { by rewrite (getContext_hit localId None st c E). }
  rewrite getContext_no_flow_miss by done. simpl.
  intros id c. unfold property. simpl. rewrite length_app. simpl.
  destruct (decide (id = localId)) as [->|Hne].
  - rewrite lookup_insert_eq. intros [= <-].
    rewrite lookup_app_r, Nat.sub_diag by lia. simpl.
    destruct (methods_lookup localId (globalContext st) (VData "")) as (? & ? & ? & _).
    split; [lia | done].
  - rewrite lookup_insert_ne by done. intros Hc.
    destruct (H id c Hc) as (Hlt & Hget & Hset & Hkeys). unfold property in *.
    rewrite !lookup_app_l by done. split; [lia | done].
Qed.

Lemma getContext_scoped localId flowId st :
  scoped st -> scoped (getContext localId flowId st).2.
Proof.
  intros H.
  destruct (getContext_cases localId flowId st)
    as [(c' & _ & ->)|[(_ & _ & ->)|(f & -> & Hf & E)]].
  - done.
  - by apply getContext_no_flow_scoped.
  - pose proof (getContext_flow_miss localId f st Hf E) as Hm. simpl in Hm.
    set (id := localId +:+ ":" +:+ f) in *.
    set (st1 := with_heap (heap st ++ [methods id]) st) in *.
    pose proof (getContext_no_flow_scoped f st1 (scoped_grow st [methods id] H)) as H2.
    destruct (getContext_no_flow_heap f st1) as [more Hheap].
    destruct (getContext f None st1) as [fl st2]. rewrite Hm. simpl in *.
    assert (heap st2 !! length (heap st) = Some (methods id)) as Hnew.
    { rewrite Hheap, <- app_assoc, lookup_app_r by lia. by rewrite Nat.sub_diag. }
    intros k c. unfold property. simpl. rewrite length_alter.
    destruct (decide (k = id)) as [->|Hne].
    + rewrite lookup_insert_eq. intros [= <-].
      rewrite list_lookup_alter_eq, Hnew. simpl.
      destruct (methods_lookup id (globalContext st2) (VRef fl)) as (_ & _ & _ & ? & ? & ?).
      split; [|done]. apply lookup_lt_Some in Hnew. lia.
    + rewrite lookup_insert_ne by done. intros Hc.
      destruct (H2 k c Hc) as (Hlt & Hget & Hset & Hkeys). unfold property in *.
      split; [done|].
      destruct (decide (length (heap st) = c)) as [<-|Hc'].
      * rewrite list_lookup_alter_eq. rewrite Hnew in *. simpl in *.
        destruct (globalContext st2); simpl.
        -- by rewrite !(lookup_insert_ne _ "global"), !(lookup_insert_ne _ "flow") by done.
        -- by rewrite !(lookup_insert_ne _ "flow") by done.
      * by rewrite list_lookup_alter_ne.
Qed.

Lemma sweep_sub allNodes ids (c : gmap string loc) id l :
  sweep allNodes ids c !! id = Some l -> c !! id = Some l.
Proof. rewrite sweep_lookup. by case_decide. Qed.

Lemma perform_scoped require c st : scoped st -> scoped (perform require c st).
Proof.
  intros H. destruct c as [l f|id f|allNodes| |]; simpl.
  - by apply getContext_scoped.
  - unfold deleteContext. destruct (hasExternalContext st); simpl; [done|].
    assert (scoped (with_contexts (delete (context_id id f) (contexts st)) st)) as Hd.
    { apply scoped_shrink; [|done]. intros k l. by intros [_ ?]%lookup_delete_Some. }
    by destruct (slot "_" _).
  - unfold clean. destruct (for_each_backend _ _) as [[e|ps] evs]; simpl; [done|].
    apply scoped_shrink; [|done]. intros k l. apply sweep_sub.
  - pose proof (load_changes require st) as Hl.
    destruct (load require st) as [[p st'] evs]. simpl.
    destruct Hl as (_ & Hc & _ & Hh & _). by eapply scoped_frame.
  - unfold close. by destruct (for_each_backend _ _) as [[e|ps] evs].
Qed.

Lemma init_scoped memory s h :
  (forall l, functionGlobalContext s = Some l -> l < length h) ->
  scoped (init memory s (initial h)).1.
Proof.
  intros Hseed. unfold init, initial. simpl.
  destruct (functionGlobalContext s) as [l|] eqn:Es; simpl.
  - specialize (Hseed l eq_refl). apply lookup_lt_is_Some in Hseed as [o Ho].
    intros id c. unfold property. simpl.
    destruct (decide (id = "global")) as [->|Hne].
    + rewrite lookup_insert_eq. intros [= <-].
      rewrite !length_alter, !list_lookup_alter_eq, Ho. simpl.
      split; [by eapply lookup_lt_Some|]. repeat split; lookup_inserted.
    + rewrite lookup_insert_ne by done. by rewrite lookup_empty.
  - intros id c. unfold property. simpl.
    destruct (decide (id = "global")) as [->|Hne].
    + rewrite lookup_insert_eq. intros [= <-].
      rewrite !length_alter, !list_lookup_alter_eq, length_app.
      rewrite lookup_app_r, Nat.sub_diag by lia. simpl.
      split; [lia|]. repeat split; lookup_inserted.
    + rewrite lookup_insert_ne by done. by rewrite lookup_empty.
Qed.

Lemma perform_all_scoped require calls st :
  scoped st -> scoped (perform_all require calls st).
Proof.
  revert st. induction calls as [|c calls IH]; intros st H; [done|].
  simpl. by apply IH, perform_scoped.
Qed.

Lemma getContext_externalContexts localId flowId st :
  externalContexts (getContext localId flowId st).2 = externalContexts st.
Proof.
  assert (forall l s0, externalContexts (getContext l None s0).2 = externalContexts s0) as Hg.
  { intros l s0. destruct (contexts s0 !! l) as [c|] eqn:E'.
    - by rewrite (getContext_hit l None s0 c E').
    - by rewrite getContext_no_flow_miss. }
  destruct (getContext_cases localId flowId st)
    as [(c' & _ & ->)|[(_ & _ & ->)|(f & -> & Hf & E)]]; [done|apply Hg|].
  pose proof (getContext_flow_miss localId f st Hf E) as Hm. simpl in Hm.
  specialize (Hg f (with_heap (heap st ++ [methods (localId +:+ ":" +:+ f)]) st)).
  destruct (getContext f None _) as [fl st2]. rewrite Hm. simpl in *. by rewrite Hg.
Qed.

Lemma perform_fallback require c st :
  Props.get "_" (externalContexts (perform require c st)) = Props.get "_" (externalContexts st).
Proof.
  destruct c as [l f|id f|allNodes| |]; simpl.
  - by rewrite getContext_externalContexts.
  - unfold deleteContext. destruct (hasExternalContext st); simpl; [done|].
    by destruct (slot "_" _).
  - unfold clean. by destruct (for_each_backend _ _) as [[e|ps] evs].
  - apply load_fallback.
  - unfold close. by destruct (for_each_backend _ _) as [[e|ps] evs].
Qed.

Lemma perform_all_fallback require calls st :
  Props.get "_" (externalContexts (perform_all require calls st))
  = Props.get "_" (externalContexts st).
Proof.
  revert st. induction calls as [|c calls IH]; intros st; [done|].
  simpl. by rewrite IH, perform_fallback.
Qed.

Lemma init_fallback memory s st :
  Props.get "_" (externalContexts (init memory s st).1) = Some (BInst memory).
Proof. unfold init. by destruct (functionGlobalContext s). Qed.

(** X16 — From [init] on, through any calls of [get], [delete], [clean], [load]
    and [close], two identifiers of the cache never share a scope object,
    and every cached object still carries the methods closed over the
    identifier it is cached under. *)
Theorem scopes_stay_apart require memory s h calls :
  (forall l, functionGlobalContext s = Some l -> l < length h) ->
  let st := perform_all require calls (init memory s (initial h)).1 in
  scoped st /\
  forall id1 id2 c,
    contexts st !! id1 = Some c -> contexts st !! id2 = Some c -> id1 = id2.
Proof.
  intros Hseed. simpl.
  pose proof (perform_all_scoped require calls _ (init_scoped memory s h Hseed)) as H.
  split; [done|]. intros id1 id2 c H1 H2.
  destruct (H id1 c H1) as (_ & Hget1 & _). destruct (H id2 c H2) as (_ & Hget2 & _).
  congruence.
Qed.

Lemma scopes_stay_apart_witness :
  3 < length (heap (perform_all no_modules
                      [CallGet "n1" (Some "f1"); CallClean ["n1"]; CallGet "f1" None]
                      (init mem settings_seeded (initial [seed_object])).1)) /\
  property 3 "get"
    (perform_all no_modules
       [CallGet "n1" (Some "f1"); CallClean ["n1"]; CallGet "f1" None]
       (init mem settings_seeded (initial [seed_object])).1)
  = Some (VClosure MGet "f1") /\
  "f1" = "f1".
Proof.
  assert (forall l, functionGlobalContext settings_seeded = Some l -> l < length [seed_object])
    as Hseed by (intros l [= <-]; simpl; lia).
  destruct (scopes_stay_apart no_modules mem settings_seeded [seed_object]
              [CallGet "n1" (Some "f1"); CallClean ["n1"]; CallGet "f1" None] Hseed)
    as [Hscoped Hapart].
  destruct (Hscoped "f1" 3 ltac:(by vm_compute)) as (Hlt & Hget & _).
  split; [exact Hlt|]. split; [exact Hget|].
  apply (Hapart "f1" "f1" 3); by vm_compute.
Defined.

(** X17 — From [init] on, through any calls, a scope method called without a
    backend name and without a completion reaches the in-memory fallback
    that [init] registered, and passes it the identifier of the scope that
    was asked for, for every scope that [getContext] returns, cached or
    new. *)
Theorem scope_methods_pass_their_identifier require memory s h calls localId flowId i :
  (forall l, functionGlobalContext s = Some l -> l < length h) ->
  truthy (arguments i).1 = false ->
  truthy (arguments i).2 = false ->
  let st := perform_all require calls (init memory s (initial h)).1 in
  let '(c, st') := getContext localId flowId st in
  invoke c i st' = Return (memory, forwarded (context_id localId flowId) i (arguments i).2).
Proof.
  intros Hseed Hs Hc. simpl.
  set (st := perform_all require calls (init memory s (initial h)).1).
  pose proof (perform_all_scoped require calls _ (init_scoped memory s h Hseed)) as H.
  fold st in H. apply (getContext_scoped localId flowId) in H.
  pose proof (getContext_caches localId flowId st) as Hcached.
  assert (slot "_" (getContext localId flowId st).2 = BInst memory) as Hslot.
  { unfold slot. rewrite getContext_externalContexts. unfold st.
    by rewrite perform_all_fallback, init_fallback. }
  destruct (getContext localId flowId st) as [c st']. simpl in *.
  destruct (H _ _ Hcached) as (_ & Hget & Hset & Hkeys).
  destruct i as [key storage callback|key value storage callback|storage callback];
    simpl in Hs, Hc; unfold invoke; cbn [method_name arguments forwarded fst snd];
    rewrite ?Hget, ?Hset, ?Hkeys;
    unfold scope_get, scope_set, scope_keys; rewrite Hs, Hc; simpl; by rewrite Hslot.
Qed.

Lemma scope_methods_pass_their_identifier_witness :
  let st := perform_all no_modules
              [CallGet "n1" (Some "f1"); CallClean ["n1"]; CallLoad]
              (init mem settings_seeded (initial [seed_object])).1 in
  let '(c, st') := getContext "n1" (Some "f1") st in
  invoke c (InvSet "count" "1" JUndefined JUndefined) st'
  = Return (mem, CSet "n1:f1" "count" "1" JUndefined).
Proof.
  apply (scope_methods_pass_their_identifier no_modules mem settings_seeded [seed_object]
           [CallGet "n1" (Some "f1"); CallClean ["n1"]; CallLoad]
           "n1" (Some "f1") (InvSet "count" "1" JUndefined JUndefined)).
  - intros l [= <-]. simpl. lia.
  - reflexivity.
  - reflexivity.
Defined.

(** ** The fallback and [load] *)

Lemma for_each_backend_returned op ext promises evs :
  for_each_backend op ext = (Return promises, evs) ->
  promises = map (fun b => (b, op)) (instances ext) /\
  evs = map (fun b => EvBackend b op) (instances ext).
Proof.
  intros H. pose proof (for_each_backend_returns _ _ _ _ H) as Hdef.
  rewrite (for_each_backend_defined _ _ Hdef) in H. by injection H as <- <-.
Qed.

(** X18 — Every [load] that does not reject has called [open] on the in-memory
    fallback that [init] registered, whatever the configuration, and the
    promise it returns waits for that call. *)
Theorem load_opens_fallback require st m :
  Props.get "_" (externalContexts st) = Some (BInst m) ->
  forall ps, (load require st).1.1 = All ps ->
  (m, OpOpen) ∈ ps /\ EvBackend m OpOpen ∈ (load require st).2.
Proof.
  intros Hm ps. load_by_executor; unfold load_executor.
  assert (forall st0 evs, slot "_" st0 = BInst m ->
            (load_finish [] st0 evs).1.1 = All ps ->
            (m, OpOpen) ∈ ps /\ EvBackend m OpOpen ∈ (load_finish [] st0 evs).2) as Hbare.
  { intros st0 evs Hslot. unfold load_finish. rewrite Hslot. simpl. intros [= <-].
    split; [apply list_elem_of_here|]. apply elem_of_app. right. apply list_elem_of_here. }
  destruct (settings st) as [s|]; [|done].
  destruct (contextStorage s) as [plugins|].
  2:{ apply Hbare. unfold slot. by rewrite Hm. }
  pose proof (load_plugins_fallback require s plugins plugins false (externalContexts st)) as Hf.
  destruct (load_plugins _ _ _ _ _ _) as [[[e|a] ext] evs]; [done|]. simpl in *.
  rewrite Hm in Hf.
  destruct (for_each_backend OpOpen ext) as [[e|promises] evs'] eqn:Eo; [done|].
  destruct (for_each_backend_returned _ _ _ _ Eo) as [-> ->].
  pose proof (instances_get _ _ _ Hf) as Hin.
  assert ((m, OpOpen) ∈ map (fun b => (b, OpOpen)) (instances ext)) as Hps
    by (by apply (list_elem_of_fmap_2 (fun b => (b, OpOpen)))).
  assert (EvBackend m OpOpen ∈ map (fun b => EvBackend b OpOpen) (instances ext)) as Hevs
    by (by apply (list_elem_of_fmap_2 (fun b => EvBackend b OpOpen))).
  unfold load_finish.
  destruct (map (fun b => (b, OpOpen)) (instances ext)) as [|p0 ps0].
  { by apply elem_of_nil in Hps. }
  simpl. intros [= <-]. split; [done|].
  apply elem_of_app. by right.
Qed.

Lemma load_opens_fallback_witness :
  (mem, OpOpen) ∈ [(mem, OpOpen); (store1, OpOpen)] /\
  EvBackend mem OpOpen ∈ (loaded settings_alias).2.
Proof.
  apply (load_opens_fallback no_modules (init mem settings_alias (initial [])).1 mem);
    reflexivity.
Defined.

(** * The scope cache as a plain object *)

(** ** One call of [Js.getContext] *)

Lemma js_getContext_body_ext self self' localId flowId st :
  (forall l s, self l None s = self' l None s) ->
  Js.getContext_body self localId flowId st = Js.getContext_body self' localId flowId st.
Proof.
  intros Hself. unfold Js.getContext_body.
  destruct (negb _); [done|].
  destruct (Js.own _ _); [done|].
  destruct (createContext _ None st) as [newContext st1].
  destruct (given flowId) as [f|]; [|done].
  by rewrite Hself.
Qed.

(** [Js.getContext] satisfies the recursive equation of the source. *)
Lemma js_getContext_unfold localId flowId st :
  Js.getContext localId flowId st = Js.getContext_body Js.getContext localId flowId st.
Proof. unfold Js.getContext. apply js_getContext_body_ext. by intros l s. Qed.

Lemma js_callable_lookup (c : gmap string loc) :
  Js.callable c = true <-> c !! "hasOwnProperty" = None.
Proof.
  unfold Js.callable. rewrite negb_true_iff, bool_decide_eq_false.
  rewrite <- eq_None_not_Some. done.
Qed.

Lemma js_own_lookup k (c : gmap string loc) :
  k ≠ "__proto__" -> Js.own k c = c !! k.
Proof. intros Hk. unfold Js.own. apply String.eqb_neq in Hk. by rewrite Hk. Qed.

Lemma js_own_Some k (c : gmap string loc) v :
  Js.own k c = Some v -> k ≠ "__proto__" /\ c !! k = Some v.
Proof. unfold Js.own. destruct (String.eqb_spec k "__proto__"); [done|]. by split. Qed.

Lemma js_assign_lookup k v (c : gmap string loc) k' :
  Js.assign k v c !! k' = if decide (k ≠ "__proto__" /\ k = k') then Some v else c !! k'.
Proof.
  unfold Js.assign. destruct (String.eqb_spec k "__proto__") as [->|Hk].
  - rewrite decide_False; [done|]. by intros [? _].
  - destruct (decide (k = k')) as [->|Hne].
    + rewrite lookup_insert_eq. by rewrite decide_True.
    + rewrite lookup_insert_ne by done. rewrite decide_False; [done|]. by intros [_ ?].
Qed.

Lemma js_assign_dom k v (c : gmap string loc) :
  dom (Js.assign k v c) = dom c ∪ Js.named k.
Proof.
  unfold Js.assign, Js.named. destruct (String.eqb k "__proto__").
  - set_solver.
  - rewrite dom_insert_L. set_solver.
Qed.

(** Once [hasOwnProperty] is an own property of the cache, every call
    throws and changes nothing. *)
Lemma js_getContext_throws localId flowId st :
  Js.callable (contexts st) = false ->
  Js.getContext localId flowId st = (Throw TypeError, st).
Proof.
  intros H. rewrite js_getContext_unfold. unfold Js.getContext_body. by rewrite H.
Qed.

Lemma js_getContext_hit localId flowId st c :
  Js.callable (contexts st) = true ->
  Js.own (context_id localId flowId) (contexts st) = Some c ->
  Js.getContext localId flowId st = (Return c, st).
Proof.
  intros H Hc. rewrite js_getContext_unfold. unfold Js.getContext_body. by rewrite H, Hc.
Qed.

Lemma js_getContext_no_flow_miss localId st :
  Js.callable (contexts st) = true ->
  Js.own localId (contexts st) = None ->
  Js.getContext localId None st =
    (Return (length (heap st)),
     with_contexts (Js.assign localId (length (heap st)) (contexts st))
       (with_heap (heap st ++ [link_global (globalContext st) (methods localId)]) st)).
Proof.
  intros Hcall H. rewrite js_getContext_unfold. unfold Js.getContext_body.
  change (context_id localId None) with localId.
  rewrite Hcall, H, createContext_fresh. cbn [negb given].
  destruct (globalContext st) as [g|] eqn:Eg; cbn [globalContext with_heap link_global].
  - rewrite Eg. by rewrite set_property_last.
  - by rewrite Eg.
Qed.

Lemma js_getContext_no_flow_returns localId st :
  Js.callable (contexts st) = true ->
  exists c st', Js.getContext localId None st = (Return c, st').
Proof.
  intros Hcall. destruct (Js.own localId (contexts st)) as [c|] eqn:E.
  - exists c, st. by apply js_getContext_hit.
  - eexists _, _. by apply js_getContext_no_flow_miss.
Qed.

Lemma js_getContext_flow_miss localId f st :
  Js.callable (contexts st) = true ->
  f ≠ "" ->
  Js.own (localId +:+ ":" +:+ f) (contexts st) = None ->
  let c := length (heap st) in
  let st1 := with_heap (heap st ++ [methods (localId +:+ ":" +:+ f)]) st in
  exists fl st2,
    Js.getContext f None st1 = (Return fl, st2) /\
    Js.getContext localId (Some f) st =
      (Return c,
       with_contexts (Js.assign (localId +:+ ":" +:+ f) c (contexts st2))
         (with_heap
            (alter (fun o => link_global (globalContext st2) (<["flow" := VRef fl]> o))
               c (heap st2)) st2)).
Proof.
  intros Hcall Hf H c st1.
  destruct (js_getContext_no_flow_returns f st1 Hcall) as (fl & st2 & E).
  exists fl, st2. split; [done|].
  rewrite js_getContext_unfold. unfold Js.getContext_body, context_id, given.
  apply String.eqb_neq in Hf. rewrite Hf, Hcall, H, createContext_fresh.
  fold st1. rewrite E. cbn [negb]. fold c.
  destruct (globalContext st2) as [g|] eqn:Eg; simpl; rewrite Eg; [|done].
  unfold set_property, with_heap, with_contexts; simpl.
  by rewrite list_alter_alter_eq.
Qed.

(** Case analysis on a call: the scope is cached, or it is created with
    or without a flow. *)
Lemma js_getContext_cases localId flowId st :
  Js.callable (contexts st) = true ->
  (exists c, Js.own (context_id localId flowId) (contexts st) = Some c /\
             Js.getContext localId flowId st = (Return c, st)) \/
  (given flowId = None /\ Js.own localId (contexts st) = None /\
   Js.getContext localId flowId st = Js.getContext localId None st) \/
  (exists f, flowId = Some f /\ f ≠ "" /\
             Js.own (localId +:+ ":" +:+ f) (contexts st) = None).
Proof.
  intros Hcall.
  destruct (Js.own (context_id localId flowId) (contexts st)) as [c|] eqn:E.
  { left. eauto using js_getContext_hit. }
  right. destruct (given flowId) as [f|] eqn:G.
  - right. apply given_Some in G as [-> Hf]. exists f.
    by rewrite context_id_flow in E.
  - left. rewrite context_id_no_flow in E by done. do 2 (split; [done|]).
    rewrite (js_getContext_unfold localId flowId), (js_getContext_unfold localId None).
    unfold Js.getContext_body.
    rewrite (context_id_no_flow _ _ G). change (context_id localId None) with localId.
    rewrite E. change (given None) with (@None string). by rewrite G.
Qed.

Lemma state_frame_refl st : st = with_contexts (contexts st) (with_heap (heap st) st).
Proof. by destruct st. Qed.

Lemma state_frame_trans st st1 st2 c h :
  st1 = with_contexts (contexts st1) (with_heap (heap st1) st) ->
  st2 = with_contexts (contexts st2) (with_heap (heap st2) st1) ->
  with_contexts c (with_heap h st2) = with_contexts c (with_heap h st).
Proof.
  intros H1 H2. unfold with_contexts, with_heap. cbn.
  rewrite H2, H1. reflexivity.
Qed.

(** What a call does when it does not throw: it returns an object, keeps
    every entry of the cache, caches the object under the identifier
    unless that is ["__proto__"], adds no other own property but the
    flow's, allocates at most two objects and writes to none that
    existed, and leaves the other variables alone. *)
Lemma js_getContext_no_flow_effect localId st :
  Js.callable (contexts st) = true ->
  exists c st',
    Js.getContext localId None st = (Return c, st') /\
    (forall k v, contexts st !! k = Some v -> contexts st' !! k = Some v) /\
    (localId ≠ "__proto__" -> contexts st' !! localId = Some c) /\
    dom (contexts st') =
      match Js.own localId (contexts st) with
      | Some _ => dom (contexts st)
      | None => dom (contexts st) ∪ Js.named localId
      end /\
    (exists more, heap st' = heap st ++ more /\ length more <= 1) /\
    st' = with_contexts (contexts st') (with_heap (heap st') st).
Proof.
  intros Hcall. destruct (Js.own localId (contexts st)) as [c|] eqn:E.
  - exists c, st. split; [by apply js_getContext_hit|].
    apply js_own_Some in E as [_ E].
    split; [done|]. split; [done|]. split; [done|].
    split; [|apply state_frame_refl].
    exists []. rewrite app_nil_r. simpl. split; [done | lia].
  - eexists _, _. split; [by apply js_getContext_no_flow_miss|]. simpl.
    split; [|split; [|split; [|split]]].
    + intros k v Hk. rewrite js_assign_lookup.
      destruct (decide _) as [[Hp <-]|_]; [|done].
      rewrite js_own_lookup in E by done. congruence.
    + intros Hp. rewrite js_assign_lookup. by rewrite decide_True.
    + apply js_assign_dom.
    + eexists. split; [reflexivity|]. simpl. lia.
    + reflexivity.
Qed.

Lemma js_getContext_effect localId flowId st :
  Js.callable (contexts st) = true ->
  exists c st',
    Js.getContext localId flowId st = (Return c, st') /\
    (forall k v, contexts st !! k = Some v -> contexts st' !! k = Some v) /\
    (context_id localId flowId ≠ "__proto__" ->
     contexts st' !! context_id localId flowId = Some c) /\
    dom (contexts st') =
      match Js.own (context_id localId flowId) (contexts st) with
      | Some _ => dom (contexts st)
      | None => dom (contexts st) ∪ Js.named (context_id localId flowId) ∪
                match given flowId with Some f => Js.named f | None => ∅ end
      end /\
    (exists more, heap st' = heap st ++ more /\ length more <= 2) /\
    st' = with_contexts (contexts st') (with_heap (heap st') st).
Proof.
  intros Hcall.
  destruct (js_getContext_cases localId flowId st Hcall)
    as [(c & Hc & Hget)|[(G & E & Hget)|(f & -> & Hf & E)]].
  - exists c, st. split; [done|]. rewrite Hc.
    apply js_own_Some in Hc as [_ Hc].
    split; [done|]. split; [done|]. split; [done|].
    split; [|apply state_frame_refl].
    exists []. rewrite app_nil_r. simpl. split; [done | lia].
  - destruct (js_getContext_no_flow_effect localId st Hcall)
      as (c & st' & Hn & Hkeep & Hcached & Hdom & (more & Hheap & Hlen) & Hframe).
    exists c, st'. rewrite Hget, context_id_no_flow, G by done.
    split; [done|]. split; [done|]. split; [done|].
    split; [|split; [|done]].
    + rewrite Hdom, E. set_solver.
    + exists more. split; [done | lia].
  - rewrite context_id_flow by done.
    assert (given (Some f) = Some f) as -> by (by apply given_Some).
    destruct (js_getContext_flow_miss localId f st Hcall Hf E) as (fl & st2 & Hin & Hget).
    set (id := localId +:+ ":" +:+ f) in *.
    set (st1 := with_heap (heap st ++ [methods id]) st) in *.
    destruct (js_getContext_no_flow_effect f st1 Hcall)
      as (fl' & st2' & Hn & Hkeep & Hcached & Hdom & (more & Hheap & Hlen) & Hframe).
    rewrite Hin in Hn. injection Hn as <- <-.
    eexists _, _. split; [exact Hget|]. rewrite E. simpl.
    split; [|split; [|split; [|split]]].
    + intros k v Hk. rewrite js_assign_lookup.
      destruct (decide _) as [[Hp <-]|_]; [|by apply Hkeep].
      rewrite js_own_lookup in E by done. congruence.
    + intros Hp. rewrite js_assign_lookup. by rewrite decide_True.
    + rewrite js_assign_dom, Hdom. simpl.
      destruct (Js.own f (contexts st)) as [v|] eqn:Ef; [|set_solver].
      apply js_own_Some in Ef as [Hp Ef]. apply elem_of_dom_2 in Ef.
      assert (Js.named f = {[f]}) as Hnamed.
      { unfold Js.named. apply String.eqb_neq in Hp. by rewrite Hp. }
      set_solver.
    + rewrite Hheap. subst st1. simpl.
      rewrite <- app_assoc, alter_app_r_alt by lia. rewrite Nat.sub_diag. simpl.
      eexists. split; [reflexivity|]. simpl. lia.
    + apply (state_frame_trans st st1 st2); [reflexivity | exact Hframe].
Qed.

Lemma js_named_elem k k' : k' ∈ Js.named k -> k' = k.
Proof. unfold Js.named. destruct (String.eqb k "__proto__"); set_solver. Qed.

(** A request that does not name [hasOwnProperty] leaves the method in
    place. *)
Lemma js_getContext_callable localId flowId st :
  Js.callable (contexts st) = true ->
  Js.harmless localId flowId ->
  Js.callable (contexts (Js.getContext localId flowId st).2) = true.
Proof.
  intros Hcall [Hid Hflow].
  destruct (js_getContext_effect localId flowId st Hcall)
    as (c & st' & -> & _ & _ & Hdom & _).
  simpl. apply js_callable_lookup, not_elem_of_dom. rewrite Hdom.
  apply js_callable_lookup, not_elem_of_dom in Hcall.
  destruct (Js.own _ _); [done|].
  intros [[H|H%js_named_elem]%elem_of_union|H]%elem_of_union; [done|done|].
  destruct (given flowId) as [f|]; [|set_solver].
  apply js_named_elem in H. congruence.
Qed.


(** ** The two layers agree on the other names *)

Lemma js_getContext_plain_no_flow localId st :
  Js.callable (contexts st) = true ->
  localId ≠ "__proto__" ->
  Js.getContext localId None st
  = (Return (getContext localId None st).1, (getContext localId None st).2).
Proof.
  intros Hcall Hp. destruct (contexts st !! localId) as [c|] eqn:E.
  - rewrite (getContext_hit localId None st c E).
    apply js_getContext_hit; [done|].
    change (context_id localId None) with localId. by rewrite js_own_lookup.
  - rewrite getContext_no_flow_miss by done.
    rewrite js_getContext_no_flow_miss by (by rewrite ?js_own_lookup).
    unfold Js.assign. apply String.eqb_neq in Hp. by rewrite Hp.
Qed.

Lemma js_getContext_plain localId flowId st :
  Js.callable (contexts st) = true ->
  Js.plain_request localId flowId ->
  Js.getContext localId flowId st
  = (Return (getContext localId flowId st).1, (getContext localId flowId st).2).
Proof.
  intros Hcall [[Hid _] Hflow].
  destruct (getContext_cases localId flowId st)
    as [(c & Hc & ->)|[(G & E & ->)|(f & -> & Hf & E)]].
  - apply js_getContext_hit; [done|]. by rewrite js_own_lookup.
  - rewrite context_id_no_flow in Hid by done.
    rewrite <- js_getContext_plain_no_flow by done.
    destruct (js_getContext_cases localId flowId st Hcall)
      as [(c & Hc & _)|[(_ & _ & ->)|(f & -> & Hf & _)]].
    + rewrite context_id_no_flow, js_own_lookup in Hc by done. congruence.
    + done.
    + assert (given (Some f) = Some f) by (by apply given_Some). congruence.
  - assert (given (Some f) = Some f) as G by (by apply given_Some).
    rewrite G in Hflow. destruct Hflow as [Hfp _].
    rewrite context_id_flow in Hid by done.
    pose proof (getContext_flow_miss localId f st Hf E) as Hold. simpl in Hold.
    destruct (js_getContext_flow_miss localId f st Hcall Hf) as (fl & st2 & Hin & ->).
    { by rewrite js_own_lookup. }
    rewrite js_getContext_plain_no_flow in Hin by done.
    destruct (getContext f None _) as [fl' st2']. injection Hin as <- <-.
    rewrite Hold. simpl.
    unfold Js.assign. apply String.eqb_neq in Hid. by rewrite Hid.
Qed.

Lemma js_deleteContext_plain id flowId st :
  context_id id flowId ≠ "__proto__" ->
  Js.deleteContext id flowId st = deleteContext id flowId st.
Proof.
  intros Hid. unfold Js.deleteContext, deleteContext, Js.remove.
  apply String.eqb_neq in Hid. by rewrite Hid.
Qed.

Lemma js_clean_plain allNodes st :
  Js.callable (contexts st) = true ->
  Js.clean allNodes st = clean allNodes st.
Proof. intros Hcall. unfold Js.clean, clean. by rewrite Hcall. Qed.

(** ** Calls of the exported functions on the plain object *)

Lemma js_remove_lookup k (c : gmap string loc) k' :
  Js.remove k c !! k' = if decide (k ≠ "__proto__" /\ k = k') then None else c !! k'.
Proof.
  unfold Js.remove. destruct (String.eqb_spec k "__proto__") as [->|Hk].
  - rewrite decide_False; [done|]. by intros [? _].
  - destruct (decide (k = k')) as [->|Hne].
    + rewrite lookup_delete_eq. by rewrite decide_True.
    + rewrite lookup_delete_ne by done. rewrite decide_False; [done|]. by intros [_ ?].
Qed.

Lemma init_contexts memory s st :
  exists g, contexts (init memory s st).1 = <["global" := g]> (contexts st).
Proof. unfold init. destruct (functionGlobalContext s); eexists; reflexivity. Qed.

Lemma js_perform_callable require memory c st :
  Js.callable (contexts st) = true ->
  Js.harmless_call c ->
  Js.callable (contexts (Js.perform require memory c st)) = true.
Proof.
  intros Hcall Hc. destruct c as [l f|id f|allNodes| | |s]; simpl.
  - by apply js_getContext_callable.
  - unfold Js.deleteContext. destruct (hasExternalContext st); simpl; [done|].
    assert (Js.callable (Js.remove (context_id id f) (contexts st)) = true) as Hr.
    { apply js_callable_lookup. rewrite js_remove_lookup.
      case_decide; [done|]. by apply js_callable_lookup. }
    by destruct (slot "_" _).
  - unfold Js.clean. destruct (for_each_backend _ _) as [[e|ps] evs]; simpl; [done|].
    rewrite Hcall. simpl. apply js_callable_lookup. rewrite sweep_lookup.
    case_decide; [done|]. by apply js_callable_lookup.
  - pose proof (load_changes require st) as Hl.
    destruct (load require st) as [[p st'] evs]. simpl.
    destruct Hl as (_ & -> & _). done.
  - unfold close. by destruct (for_each_backend _ _) as [[e|ps] evs].
  - destruct (init_contexts memory s st) as [g ->].
    apply js_callable_lookup. rewrite lookup_insert_ne by done.
    by apply js_callable_lookup.
Qed.

Lemma js_perform_keeps require memory c st id v :
  Js.callable (contexts st) = true ->
  Js.spares id c ->
  contexts st !! id = Some v ->
  contexts (Js.perform require memory c st) !! id = Some v.
Proof.
  intros Hcall Hc Hid. destruct c as [l f|i f|allNodes| | |s]; simpl in *.
  - destruct (js_getContext_effect l f st Hcall) as (c & st' & -> & Hkeep & _).
    by apply Hkeep.
  - unfold Js.deleteContext. destruct (hasExternalContext st); simpl; [done|].
    assert (Js.remove (context_id i f) (contexts st) !! id = Some v) as Hr.
    { rewrite js_remove_lookup. rewrite decide_False; [done|]. by intros [_ ?]. }
    by destruct (slot "_" _).
  - unfold Js.clean. destruct (for_each_backend _ _) as [[e|ps] evs]; simpl; [done|].
    rewrite Hcall. simpl. rewrite sweep_cache_lookup.
    rewrite decide_False; [done|]. intros [Hg Hlive]. by destruct Hc.
  - pose proof (load_changes require st) as Hl.
    destruct (load require st) as [[p st'] evs]. simpl.
    destruct Hl as (_ & -> & _). done.
  - unfold close. by destruct (for_each_backend _ _) as [[e|ps] evs].
  - destruct (init_contexts memory s st) as [g ->].
    by rewrite lookup_insert_ne.
Qed.

Lemma js_perform_all_keeps require memory calls st id v :
  Js.callable (contexts st) = true ->
  Forall Js.harmless_call calls ->
  Forall (Js.spares id) calls ->
  contexts st !! id = Some v ->
  Js.callable (contexts (Js.perform_all require memory calls st)) = true /\
  contexts (Js.perform_all require memory calls st) !! id = Some v.
Proof.
  intros Hcall Hh. revert st Hcall.
  induction Hh as [|c calls Hc _ IH]; intros st Hcall Hs Hid; [done|].
  apply Forall_cons in Hs as [Hs Hss].
  change (Js.perform_all require memory (c :: calls) st)
    with (Js.perform_all require memory calls (Js.perform require memory c st)).
  apply IH; [by apply js_perform_callable | done | by apply js_perform_keeps].
Qed.



(** ** Reference stability *)

(** C6, as amended — reference stability of the cache.  While
    [hasOwnProperty] is not an own property of the cache, and for a scope
    identifier that is neither ["__proto__"] nor ["hasOwnProperty"] (nor
    has the latter as its flow): the first [getContext] returns a scope
    object and caches it under the identifier, and after any calls of the
    exported functions that do not remove or replace that entry — no
    [deleteContext] of the identifier, no [clean] that sweeps it, no
    [init] when the identifier is ["global"], and no [getContext] that
    names [hasOwnProperty] — [getContext] returns the same object and
    changes nothing. *)
Theorem getContext_stable_until_removed require memory localId flowId st calls :
  Js.callable (contexts st) = true ->
  context_id localId flowId ≠ "__proto__" ->
  Js.harmless localId flowId ->
  Forall Js.harmless_call calls ->
  Forall (Js.spares (context_id localId flowId)) calls ->
  exists c st1,
    Js.getContext localId flowId st = (Return c, st1) /\
    contexts st1 !! context_id localId flowId = Some c /\
    let st2 := Js.perform_all require memory calls st1 in
    Js.getContext localId flowId st2 = (Return c, st2).
Proof.
  intros Hcall Hp Hh Hcalls Hspares.
  pose proof (js_getContext_callable localId flowId st Hcall Hh) as Hcall1.
  destruct (js_getContext_effect localId flowId st Hcall)
    as (c & st1 & Hget & _ & Hcached & _).
  rewrite Hget in Hcall1. simpl in Hcall1. specialize (Hcached Hp).
  exists c, st1. split; [done|]. split; [done|]. simpl.
  destruct (js_perform_all_keeps require memory calls st1 _ c Hcall1 Hcalls Hspares Hcached)
    as [Hcall2 Hid2].
  apply js_getContext_hit; [done|]. by rewrite js_own_lookup.
Qed.

Lemma getContext_stable_until_removed_witness :
  exists c st1,
    Js.getContext "n1" (Some "f1") started = (Return c, st1) /\
    contexts st1 !! "n1:f1" = Some c /\
    let st2 := Js.perform_all no_modules mem
                 [Js.DoGet "f2" None; Js.DoGet "__proto__" None; Js.DoClean ["n1"];
                  Js.DoDelete "n1" (Some "f2"); Js.DoInit settings_plain; Js.DoLoad;
                  Js.DoGet "n1" (Some "f1"); Js.DoClose] st1 in
    Js.getContext "n1" (Some "f1") st2 = (Return c, st2).
Proof.
  apply (getContext_stable_until_removed no_modules mem "n1" (Some "f1") started
           [Js.DoGet "f2" None; Js.DoGet "__proto__" None; Js.DoClean ["n1"];
            Js.DoDelete "n1" (Some "f2"); Js.DoInit settings_plain; Js.DoLoad;
            Js.DoGet "n1" (Some "f1"); Js.DoClose]).
  - reflexivity.
  - vm_compute. intros [=].
  - split; vm_compute; intros [=].
  - repeat constructor; vm_compute; intros [=].
  - repeat (apply Forall_cons; split); try apply Forall_nil; try exact I;
      try (vm_compute; intros [=]).
    right. vm_compute. apply list_elem_of_here.
Defined.

(** C6, as stated, fails for three identifiers.  An assignment to
    [contexts["__proto__"]] creates no own property, so every
    [getContext("__proto__")] returns a new object (locations 1, then 2).
    After [getContext("hasOwnProperty")] the cache has an own property of
    that name and the next call throws.  And [init], which is neither a
    [deleteContext] nor a sweep, rebinds ["global"]: the scope returned
    before (location 0) is not the one returned after (location 1). *)
Lemma getContext_not_stable_for_every_identifier :
  (let '(r1, st1) := Js.getContext "__proto__" None started in
   let '(r2, st2) := Js.getContext "__proto__" None st1 in
   r1 = Return 1 /\ r2 = Return 2 /\ r1 ≠ r2) /\
  (let '(r1, st1) := Js.getContext "hasOwnProperty" None started in
   let '(r2, st2) := Js.getContext "hasOwnProperty" None st1 in
   r1 = Return 1 /\ r2 = Throw TypeError /\ r1 ≠ r2) /\
  (let '(r1, st1) := Js.getContext "global" None started in
   let st2 := Js.perform no_modules mem (Js.DoInit settings_plain) st1 in
   let '(r3, st3) := Js.getContext "global" None st2 in
   r1 = Return 0 /\ r3 = Return 1 /\ r1 ≠ r3).
Proof. vm_compute. repeat split; intros [=]. Qed.

(** ** The parent links *)




(** ** What a [getContext] adds to the cache *)

(** X12 — Once [hasOwnProperty] is an own property of the cache, [getContext]
    throws and changes nothing.  Otherwise it returns a scope object and
    never removes or rebinds an entry of the cache; when the requested
    scope is cached it adds nothing, and when it is not it adds the
    requested identifier and, if a flow is given, the flow's, each unless
    it is ["__proto__"], which is never added, and nothing else.  It
    allocates at most two objects and changes no other variable. *)
Theorem getContext_adds_only_requested_names localId flowId st :
  (Js.callable (contexts st) = false ->
   Js.getContext localId flowId st = (Throw TypeError, st)) /\
  (Js.callable (contexts st) = true ->
   exists c st',
     Js.getContext localId flowId st = (Return c, st') /\
     (forall k v, contexts st !! k = Some v -> contexts st' !! k = Some v) /\
     dom (contexts st') =
       match Js.own (context_id localId flowId) (contexts st) with
       | Some _ => dom (contexts st)
       | None => dom (contexts st) ∪ Js.named (context_id localId flowId) ∪
                 match given flowId with Some f => Js.named f | None => ∅ end
       end /\
     "__proto__" ∉ dom (contexts st') ∖ dom (contexts st) /\
     length (heap st) <= length (heap st') <= length (heap st) + 2 /\
     st' = with_contexts (contexts st') (with_heap (heap st') st)).
Proof.
  split; [apply js_getContext_throws|]. intros Hcall.
  destruct (js_getContext_effect localId flowId st Hcall)
    as (c & st' & Hget & Hkeep & _ & Hdom & (more & Hheap & Hlen) & Hframe).
  exists c, st'. split; [done|]. split; [done|]. split; [done|].
  split; [|split; [|done]].
  - rewrite Hdom. destruct (Js.own _ _); [set_solver|].
    assert (forall k, "__proto__" ∉ Js.named k) as Hnamed.
    { intros k. unfold Js.named. destruct (String.eqb_spec k "__proto__"); set_solver. }
    pose proof (Hnamed (context_id localId flowId)).
    destruct (given flowId) as [f|]; [pose proof (Hnamed f)|]; set_solver.
  - rewrite Hheap, length_app. lia.
Qed.

Lemma getContext_adds_only_requested_names_witness :
  (exists c st',
     Js.getContext "n1" (Some "__proto__") started = (Return c, st') /\
     dom (contexts st') = dom (contexts started) ∪ {["n1:__proto__"]} /\
     length (heap st') <= 3) /\
  Js.getContext "n1" None
    (Js.getContext "n2" (Some "hasOwnProperty") started).2
  = (Throw TypeError, (Js.getContext "n2" (Some "hasOwnProperty") started).2).
Proof.
  split.
  - destruct (proj2 (getContext_adds_only_requested_names "n1" (Some "__proto__") started)
                eq_refl) as (c & st' & Hget & _ & Hdom & _ & Hlen & _).
    exists c, st'. split; [exact Hget|]. split.
    + rewrite Hdom. vm_compute. reflexivity.
    + simpl in Hlen. lia.
  - apply (proj1 (getContext_adds_only_requested_names "n1" None
                    (Js.getContext "n2" (Some "hasOwnProperty") started).2)).
    reflexivity.
Defined.

(** ** Deleting when only the fallback is registered *)

(** C9 — [deleteContext] after [init] and a [load] with an empty
    [contextStorage].  The load resolves after opening the in-memory
    fallback alone, and the registry holds nothing else; yet the flag is
    set, so [deleteContext("n1")] resolves at once, calls no backend and
    leaves the scope of [n1] in the cache. *)
Theorem delete_skipped_without_external_backend :
  let '(p, st0, evs) := loaded settings_empty in
  let '(r, st) := Js.getContext "n1" None st0 in
  p = All [(mem, OpOpen)] /\
  evs = [EvBackend mem OpOpen] /\
  externalContexts st = [("_", BInst mem)] /\
  hasExternalContext st = true /\
  r = Return 1 /\
  contexts st !! "n1" = Some 1 /\
  Js.deleteContext "n1" None st = (Return Resolved, st, []) /\
  contexts (Js.deleteContext "n1" None st).1.2 !! "n1" = Some 1.
Proof. vm_compute. repeat split. Qed.
